(** * tbl2map: PCR tabular data to tube well maps

    A shallow embedding of the data transformation of [tbl2map.py]:
    the regular-expression extractions on the [Well], [Content] and [Sample]
    columns, the label derivation, the pivot of the table into a well map,
    its merge into the 8 x 12 template, and [highlight_cells].

    Conventions.
    - A Python [str] is a [string]; a character is read as the code point of
      the same number (0 to 255).
    - pandas' missing value [NaN] is [None].
    - A raised Python exception is [Raise e]; nothing in the script catches
      one, so a raise aborts the conversion.
    - A [DataFrame] is its set of row labels, its set of column labels and its
      non-missing cells; the display order of the labels is not modelled.
    - The table of a conversion is the one [pd.read_excel] returns, taken
      where every cell is the text of the worksheet. The reader turns a
      column whose cells all read as numbers into numbers, on which the
      [.str] methods of the script raise AttributeError, and a cell that
      holds a mark of a missing value into [NaN]; [text_table] is a
      sufficient condition for neither to happen, and the statements that
      promise a map ask for it. *)

From stdpp Require Import gmap strings list sorting.
From Stdlib Require Import ZArith Ascii String.

Open Scope string_scope.
Open Scope Z_scope.
Open Scope list_scope.

(** ** Characters *)

Definition code (c : ascii) : N := N_of_ascii c.

Definition in_range (lo hi : N) (c : ascii) : bool :=
  ((lo <=? code c) && (code c <=? hi))%N.

(** [[0-9]] *)
Definition is_digit (c : ascii) : bool := in_range 48 57 c.

(** [[A-Z]] and [[a-z]] *)
Definition is_upper (c : ascii) : bool := in_range 65 90 c.
Definition is_lower (c : ascii) : bool := in_range 97 122 c.

(** [[a-zA-Z]] *)
Definition is_alpha (c : ascii) : bool := is_lower c || is_upper c.

(** [\s] of a [str] pattern: the characters for which [str.isspace] holds,
    among the code points below 256. *)
Definition is_space (c : ascii) : bool :=
  in_range 9 13 c || in_range 28 32 c || (code c =? 133)%N || (code c =? 160)%N.

(** [str.lower] on one character, for the letters A to Z. *)
Definition to_lower (c : ascii) : ascii :=
  if is_upper c then ascii_of_N (code c + 32) else c.

(** A literal character of a pattern, under the flag [(?i)] or not. *)
Definition lit (c : ascii) : ascii -> bool := fun x => bool_decide (x = c).
Definition lit_i (c : ascii) : ascii -> bool :=
  fun x => bool_decide (to_lower x = to_lower c).

(** ** The fragment of Python's [re] that the script uses

    Every pattern of the script is a sequence of character classes, each one
    taken once, or repeated with the greedy [+] or [*]. The matcher is the
    backtracking one of [re]: a repetition first takes as many characters as
    it can and gives them back one at a time while the rest of the pattern
    fails. The whole pattern is the only capture group. *)

Module Re.

Inductive quant := One | Plus | Star.

Record atom := Atom { cls : ascii -> bool; rep : quant }.

Definition regex := list atom.

(** [greedy k p lo s]: at least [lo] characters of class [p], the longest
    run first, then the continuation [k] on what is left. *)
Fixpoint greedy (k : list ascii -> option (list ascii)) (p : ascii -> bool)
    (lo : nat) (s : list ascii) : option (list ascii) :=
  let stop := match lo with O => k s | S _ => None end in
  match s with
  | c :: s' =>
      if p c then
        match greedy k p (pred lo) s' with
        | Some m => Some (c :: m)
        | None => stop
        end
      else stop
  | [] => stop
  end.

(** The match of [re] that starts at the head of [s], if any: the matched
    text. *)
Fixpoint match_here (re : regex) (s : list ascii) : option (list ascii) :=
  match re with
  | [] => Some []
  | a :: re' =>
      match rep a with
      | One =>
          match s with
          | c :: s' =>
              if cls a c then
                match match_here re' s' with
                | Some m => Some (c :: m)
                | None => None
                end
              else None
          | [] => None
          end
      | Plus => greedy (match_here re') (cls a) 1 s
      | Star => greedy (match_here re') (cls a) 0 s
      end
  end.

(** [re.search]: the match at the leftmost position that has one. *)
Fixpoint search (re : regex) (s : list ascii) : option (list ascii) :=
  match match_here re s with
  | Some m => Some m
  | None =>
      match s with
      | [] => None
      | _ :: s' => search re s'
      end
  end.

(** The texts a pattern matches, whatever the order of the attempts. *)
Definition atom_matches (a : atom) (m : list ascii) : Prop :=
  Forall (fun c => cls a c = true) m ∧
  match rep a with
  | One => List.length m = 1%nat
  | Plus => (1 ≤ List.length m)%nat
  | Star => True
  end.

Inductive matches : regex → list ascii → Prop :=
| matches_nil : matches [] []
| matches_cons a re m1 m2 :
    atom_matches a m1 → matches re m2 → matches (a :: re) (m1 ++ m2).

(** A pattern without metacharacters. *)
Definition literal (pat : string) : regex :=
  (fun c => Atom (lit c) One) <$> list_ascii_of_string pat.

(** The same under [(?i)]. *)
Definition literal_i (pat : string) : regex :=
  (fun c => Atom (lit_i c) One) <$> list_ascii_of_string pat.

End Re.

(** ** pandas' string methods *)

(** [Series.str.extract(pat)] on one element, for a pattern with one group
    around the whole of it: the group of the first match, [NaN] without a
    match. *)
Definition str_extract (re : Re.regex) (s : string) : option string :=
  string_of_list_ascii <$> Re.search re (list_ascii_of_string s).

(** [Series.str.contains(pat)] on one element. *)
Definition str_contains (re : Re.regex) (s : string) : bool :=
  bool_decide (is_Some (Re.search re (list_ascii_of_string s))).

(** ** Python exceptions *)

Inductive exn :=
| ValueError_nan_to_integer     (* int(float('nan')) *)
| OverflowError_int_too_large   (* an int outside the range of int64; for a
                                   text beyond the digit limit of [int], the
                                   error of that limit *)
| ValueError_duplicate_entries  (* pivot: the index has duplicate entries *)
| ValueError_unpack.            (* not as many values as targets *)

Inductive result (A : Type) :=
| Ok (a : A)
| Raise (e : exn).
Arguments Ok {A} a.
Arguments Raise {A} e.

Global Instance exn_eq_dec : EqDecision exn.
Proof. solve_decision. Defined.
Global Instance result_eq_dec {A} `{EqDecision A} : EqDecision (result A).
Proof. solve_decision. Defined.

Global Instance result_ret : MRet result := fun A a => Ok a.
Global Instance result_bind : MBind result := fun A B f r =>
  match r with
  | Ok a => f a
  | Raise e => Raise e
  end.
Global Instance result_fmap : FMap result := fun A B f r =>
  match r with
  | Ok a => Ok (f a)
  | Raise e => Raise e
  end.

(** ** The input table *)

(** One line of the table the script works on, with the columns it keeps,
    each cell being the text it holds. The table is what [pd.read_excel]
    (line 378) returns: a cell that the reader turns into a missing value, a
    number or a boolean is not such a text, and a table with such a cell is
    outside these records ([text_table], further down, is sufficient for a
    worksheet of texts to be read as they are). *)
Record WellRecord := {
  Well : string;
  Content : string;
  Sample : string
}.

(** ** Labels *)

(** [df['Content'].str.contains('(?i)Ctrl')] *)
Definition pos_neg_ctrls (content : string) : bool :=
  str_contains (Re.literal_i "Ctrl") content.

(** [df.loc[pos_neg_ctrls, ['Content']]]: the content on the lines of the
    controls, [NaN] on the others. *)
Definition Label_of_ctrls (rec : WellRecord) : option string :=
  if pos_neg_ctrls (Content rec) then Some (Content rec) else None.

(** [Series.combine_first]: the left value unless it is missing. *)
Definition series_combine_first {A} (x : option A) (other : A) : A :=
  match x with
  | Some v => v
  | None => other
  end.

(** [df['Label']] *)
Definition Label_of (rec : WellRecord) : string :=
  series_combine_first (Label_of_ctrls rec) (Sample rec).

(** [([a-zA-Z]+\s*[a-zA-Z]+)] *)
Definition regex_group : Re.regex :=
  [Re.Atom is_alpha Re.Plus; Re.Atom is_space Re.Star; Re.Atom is_alpha Re.Plus].

(** [([0-9]+)] *)
Definition regex_examinee : Re.regex := [Re.Atom is_digit Re.Plus].

(** ** Wells *)

(** [([a-zA-Z])] *)
Definition regex_row : Re.regex := [Re.Atom is_alpha Re.One].

(** [([0-9]+)] *)
Definition regex_col : Re.regex := [Re.Atom is_digit Re.Plus].

Definition digit_value (c : ascii) : Z := Z.of_N (code c - 48).

(** [int(s)] for a text made of digits, the only one [regex_col] extracts. *)
Definition int_of_digits (ds : string) : Z :=
  fold_left (fun acc c => 10 * acc + digit_value c) (list_ascii_of_string ds) 0.

Definition int64_max : Z := 2 ^ 63 - 1.

(** [.astype(np.int64)] on one element of a column of texts: a missing value
    has no integer, and neither has a number above [int64_max]. *)
Definition astype_int64 (v : option string) : result Z :=
  match v with
  | None => Raise ValueError_nan_to_integer
  | Some ds =>
      let n := int_of_digits ds in
      if n <=? int64_max then Ok n else Raise OverflowError_int_too_large
  end.

(** [df['Well.row']] and [df['Well.col']] on one line. *)
Definition Well_row_of (well : string) : option string :=
  str_extract regex_row well.

Definition Well_col_of (well : string) : result Z :=
  astype_int64 (str_extract regex_col well).

(** One line of the table with the columns of [cols_of_int]. *)
Record row := {
  r_Well : string;
  Well_row : option string;
  Well_col : Z;
  Label : string;
  Label_group : option string;
  Label_examinee : option string
}.

(** The new columns of one line. *)
Definition new_columns (rec : WellRecord) : result row :=
  col ← Well_col_of (Well rec);
  mret {| r_Well := Well rec;
          Well_row := Well_row_of (Well rec);
          Well_col := col;
          Label := Label_of rec;
          Label_group := str_extract regex_group (Label_of rec);
          Label_examinee := str_extract regex_examinee (Label_of rec) |}.

(** The new columns are computed one after the other; [astype] is the only
    step that can raise, and it raises at the first line it cannot convert. *)
Definition add_columns (records : list WellRecord) : result (list row) :=
  mapM new_columns records.

(** ** Data frames *)

Record DataFrame := {
  index : gset (option string);
  columns : gset Z;
  cells : gmap (option string * Z) string
}.

(** [df.at[r, c]], [None] for [NaN]. *)
Definition at_ (df : DataFrame) (r : option string) (c : Z) : option string :=
  cells df !! (r, c).

(** [df.size]: the number of cells, missing ones included. *)
Definition df_size (df : DataFrame) : nat :=
  (size (index df) * size (columns df))%nat.

(** Every value stands at a labelled position. *)
Definition df_wf (df : DataFrame) : Prop :=
  ∀ r c v, cells df !! (r, c) = Some v → r ∈ index df ∧ c ∈ columns df.

(** The values of one column of a dict of columns, each with its row. *)
Definition column_cells (idx : list string) (col : Z * list (option string))
    : list (option string * Z * string) :=
  omap (fun rv : string * option string =>
          match rv.2 with
          | Some x => Some (Some rv.1, col.1, x)
          | None => None
          end)
       (zip idx col.2).

(** [pd.DataFrame(data, index=idx)] for a dict [data] of columns. *)
Definition mk_DataFrame (data : list (Z * list (option string)))
    (idx : list string) : DataFrame :=
  {| index := list_to_set (Some <$> idx);
     columns := list_to_set data.*1;
     cells := list_to_map (data ≫= column_cells idx) |}.

Definition pivot_key (r : row) : option string * Z := (Well_row r, Well_col r).

(** The frame of a table whose lines stand at distinct positions: the
    labels of the rows and of the columns are the values met in the two
    columns, a missing row label included. *)
Definition pivoted (tbl : list row) : DataFrame :=
  {| index := list_to_set (Well_row <$> tbl);
     columns := list_to_set (Well_col <$> tbl);
     cells := list_to_map ((fun r => (pivot_key r, Label r)) <$> tbl) |}.

(** [df.pivot(index='Well.row', columns='Well.col', values='Label')]: two
    lines with the same row and column are an error. *)
Definition pivot (tbl : list row) : result DataFrame :=
  if bool_decide (NoDup (pivot_key <$> tbl)) then Ok (pivoted tbl)
  else Raise ValueError_duplicate_entries.

(** [DataFrame.combine_first]: the labels of both frames, and at each
    position the left value unless it is missing. *)
Definition combine_first (df other : DataFrame) : DataFrame :=
  {| index := index df ∪ index other;
     columns := columns df ∪ columns other;
     cells := cells df ∪ cells other |}.

(** ** The template *)

Definition chr (i : Z) : string := String (ascii_of_N (Z.to_N i)) "".
Definition ord (c : ascii) : Z := Z.of_N (code c).

(** [list(range(1, 13))] *)
Definition well_cols : list Z := seqZ 1 12.

(** [[chr(i) for i in range(ord('A'), ord('H')+1)]] *)
Definition well_rows : list string :=
  chr <$> seqZ (ord "A") (ord "H" + 1 - ord "A").

Definition unloaded_wells : list (Z * list (option string)) :=
  (fun col => (col, replicate (List.length well_rows) None)) <$> well_cols.

Definition df_tpl : DataFrame := mk_DataFrame unloaded_wells well_rows.

(** ** The conversion of one table *)

(** Lines 389 to 426, on a table whose cells are texts. The [.str] methods
    of lines 389 to 416 raise AttributeError on a column that the reader has
    turned into numbers, and line 396 raises on a missing content: those
    tables are not lists of records, and the statements that say when a map
    is returned ask for [text_table]. *)
Definition convert_table_to_map (records : list WellRecord)
    : result DataFrame :=
  df ← add_columns records;
  df_pivot ← pivot df;
  mret (combine_first df_pivot df_tpl).

(** ** Highlighting *)

Record colors := {
  background_color : string;
  text_color : string
}.

(** [str(val)] for a cell of the map: a text, or the float [nan]. *)
Definition str (val : option string) : string :=
  match val with
  | Some s => s
  | None => "nan"
  end.

(** A dict in the order of insertion of its keys. *)
Definition dict (V : Type) := list (string * V).

(** [d[k] = v]: a new key goes last, a known key keeps its place. *)
Fixpoint dict_set {V} (d : dict V) (k : string) (v : V) : dict V :=
  match d with
  | [] => [(k, v)]
  | (k', v') :: d' =>
      if bool_decide (k' = k) then (k', v) :: d' else (k', v') :: dict_set d' k v
  end.

(** [re.split(';', s)] *)
Fixpoint split_semicolon (s : string) : list string :=
  match s with
  | "" => [""]
  | String c s' =>
      if bool_decide (c = ";"%char) then "" :: split_semicolon s'
      else match split_semicolon s' with
           | [] => [String c ""]
           | w :: ws => String c w :: ws
           end
  end.

(** The dict [color_map] built from the entries of the key [highlight]. *)
Fixpoint build_color_map (highlight : list string) (color_map : dict colors)
    : result (dict colors) :=
  match highlight with
  | [] => Ok color_map
  | hlgt :: rest =>
      match split_semicolon hlgt with
      | [val_to_be_colored; bkg_clr; txt_clr] =>
          build_color_map rest
            (dict_set color_map val_to_be_colored
               {| background_color := bkg_clr; text_color := txt_clr |})
      | _ => Raise ValueError_unpack
      end
  end.

Section Highlight.

(** [re.search(pattern, text)] read as a truth value. The patterns come
    from the configuration file and can be any regular expression. *)
Variable re_search : string -> string -> bool.

(** The colors of one matched entry. *)
Definition color_lst_of (c : colors) : list string :=
  (if (0 <? String.length (background_color c))%nat
   then ["background-color:" +:+ background_color c] else [])
  ++ (if (0 <? String.length (text_color c))%nat
      then ["color:" +:+ text_color c] else []).

(** The loop over the dict, left at the first pattern that matches. A key
    met in the loop is a key of the dict, so that [color_map[key]] is the
    value paired with it. *)
Fixpoint highlight_loop (val_to_be_examined : string)
    (color_map : dict colors) : list string :=
  match color_map with
  | [] => []
  | (val_to_be_colored, c) :: rest =>
      if re_search val_to_be_colored val_to_be_examined
      then color_lst_of c
      else highlight_loop val_to_be_examined rest
  end.

(** [';'.join(color_lst) if color_lst else None] *)
Definition the_color_of (color_lst : list string) : option string :=
  match color_lst with
  | [] => None
  | _ => Some (String.concat ";" color_lst)
  end.

Definition highlight_cells (val : option string) (color_map : dict colors)
    : option string :=
  let val_to_be_examined := str val in
  the_color_of (highlight_loop val_to_be_examined color_map).

End Highlight.

(** [re.search] for a pattern without metacharacters: the pattern occurs in
    the text, letter case included. *)
Definition re_search_literal (pattern text : string) : bool :=
  str_contains (Re.literal pattern) text.

(** ** Vocabulary of the statements *)

Abbreviation chars := list_ascii_of_string.

(** Every character of [s] is of class [p]; no character of [s] is. *)
Definition all_chars (p : ascii → bool) (s : string) : Prop :=
  Forall (fun c => p c = true) (chars s).
Definition no_chars (p : ascii → bool) (s : string) : Prop :=
  Forall (fun c => p c = false) (chars s).

(** [s] does not start with a character of class [p]. *)
Definition not_starting (p : ascii → bool) (s : string) : Prop :=
  ∀ c s', s = String c s' → p c = false.

(** [str.lower] for the letters A to Z. *)
Definition lower (s : string) : string :=
  string_of_list_ascii (to_lower <$> chars s).

(** The row and the column of one well, as the two columns [Well.row] and
    [Well.col] hold them. *)
Definition parse_well (well : string) : result (option string * Z) :=
  col ← Well_col_of well;
  mret (Well_row_of well, col).

Definition well_record (w c s : string) : WellRecord :=
  {| Well := w; Content := c; Sample := s |}.

(** The positions of the lines of a table. *)
Definition well_keys (records : list WellRecord)
    : list (result (option string * Z)) :=
  (fun rec => parse_well (Well rec)) <$> records.

(** Every well of the table has a column number. *)
Definition all_parsed (records : list WellRecord) : Prop :=
  Forall (fun rec => ∃ key, parse_well (Well rec) = Ok key) records.

(** Every well of the table is one of the plate: a row from A to H and a
    column from 1 to 12. *)
Definition on_plate (records : list WellRecord) : Prop :=
  Forall (fun rec => ∃ r c, parse_well (Well rec) = Ok (Some r, c) ∧
                       r ∈ well_rows ∧ 1 ≤ c ≤ 12) records.

(** No pattern of [color_map] matches [text]. *)
Definition no_match (re_search : string → string → bool) (text : string)
    (color_map : dict colors) : Prop :=
  Forall (fun kv => re_search kv.1 text = false) color_map.

Definition rule (pattern bkg_clr txt_clr : string) : string * colors :=
  (pattern, {| background_color := bkg_clr; text_color := txt_clr |}).

(** *** The group of a label, by its position *)

(** [g] is the group of the text [s]: it stands in [s] where no earlier
    letter has a letter after it, at once or after whitespace only; it is
    that letter's whole run of letters, followed, when whitespace and a
    letter come next, by that whitespace and the whole next run of letters;
    when no whitespace is taken, none followed by a letter comes next. *)
Definition group_at (s g : list ascii) : Prop :=
  ∃ pre a ws b post,
    s = pre ++ g ++ post ∧ g = a ++ ws ++ b ∧ a ≠ [] ∧ b ≠ [] ∧
    Forall (fun c => is_alpha c = true) a ∧
    Forall (fun c => is_space c = true) ws ∧
    Forall (fun c => is_alpha c = true) b ∧
    (∀ c post', post = c :: post' → is_alpha c = false) ∧
    (ws = [] →
     ∀ ws' y post', post = ws' ++ y :: post' →
       Forall (fun c => is_space c = true) ws' → is_alpha y = false) ∧
    (∀ pre1 x ws1 y post1,
       s = pre1 ++ x :: ws1 ++ y :: post1 →
       is_alpha x = true → Forall (fun c => is_space c = true) ws1 →
       is_alpha y = true → (List.length pre ≤ List.length pre1)%nat).

(** The longest prefix of [s] made of characters of class [p], and what
    follows it. *)
Fixpoint run (p : ascii → bool) (s : list ascii) : list ascii :=
  match s with
  | c :: s' => if p c then c :: run p s' else []
  | [] => []
  end.

Fixpoint after_run (p : ascii → bool) (s : list ascii) : list ascii :=
  match s with
  | c :: s' => if p c then after_run p s' else s
  | [] => []
  end.

(** The group that starts at the head of [t], when one starts there. *)
Definition group_from (t : list ascii) : list ascii :=
  let r1 := after_run is_alpha t in
  match run is_alpha (after_run is_space r1) with
  | [] => run is_alpha t
  | l2 => run is_alpha t ++ run is_space r1 ++ l2
  end.

(** *** The cells that the reader hands over as texts *)

(** The script works on what [pd.read_excel] (line 378) makes of the
    worksheet. The reader replaces a cell that holds one of its marks of a
    missing value by [NaN], and turns a column into numbers or booleans when
    every cell of the column reads as one. The records of this development
    are the cells that are handed over as the texts they hold; the
    conditions below are sufficient for that. *)

(** The default marks of a missing value, the empty cell included. *)
Definition na_values : list string :=
  ["-1.#IND"; "1.#QNAN"; "1.#IND"; "-1.#QNAN"; "#N/A N/A"; "#N/A"; "N/A";
   "n/a"; "NA"; "<NA>"; "#NA"; "NULL"; "null"; "NaN"; "-NaN"; "nan"; "-nan";
   "None"; ""].

(** A text that cannot read as a number or a boolean: it starts with a
    letter and does not start like [inf], [nan], [true] or [false], in any
    letter case. *)
Definition reads_as_text (s : string) : bool :=
  match s with
  | String c _ =>
      is_alpha c
      && negb (existsb (fun w => String.prefix w (lower s))
                       ["inf"; "nan"; "true"; "false"])
  | "" => false
  end.

(** A column that is handed over as texts: no cell is a mark of a missing
    value, and some cell cannot read as a number or a boolean, unless the
    column is empty. *)
Definition text_column (cells : list string) : bool :=
  forallb (fun s => negb (bool_decide (s ∈ na_values))) cells
  && (match cells with [] => true | _ => existsb reads_as_text cells end).

(** A table whose three columns are handed over as texts. *)
Definition text_table (records : list WellRecord) : bool :=
  text_column (Well <$> records)
  && text_column (Content <$> records)
  && text_column (Sample <$> records).

(** ** The rest of the conversion *)

(** [re.sub(pattern, repl, s)] for a pattern that is one character class and
    a replacement without backreference. *)
Fixpoint re_sub_class (p : ascii → bool) (repl : string) (s : string)
    : string :=
  match s with
  | "" => ""
  | String c s' =>
      if p c then repl +:+ re_sub_class p repl s'
      else String c (re_sub_class p repl s')
  end.

(** A pattern made of classes taken once each. *)
Definition ones (ps : list (ascii → bool)) : Re.regex :=
  (fun p => Re.Atom p Re.One) <$> ps.

(** [[0-9]{4}-[0-9]{2}-[0-9]{2}] *)
Definition regex_date : Re.regex :=
  ones [is_digit; is_digit; is_digit; is_digit; lit "-";
        is_digit; is_digit; lit "-"; is_digit; is_digit].

(** [ [0-9]{2}-[0-9]{2}-[0-9]{2}], with its leading space *)
Definition regex_time : Re.regex :=
  ones [lit " "; is_digit; is_digit; lit "-";
        is_digit; is_digit; lit "-"; is_digit; is_digit].

(** [re.search(re, s).group(0)], [None] without a match. *)
Definition group0 (re : Re.regex) (s : string) : option string :=
  string_of_list_ascii <$> Re.search re (chars s).

(** [created_dt['date']] and [created_dt['time']] for the file [tbl]. *)
Definition created_date (tbl : string) : option string :=
  re_sub_class (lit "-") "/" <$> group0 regex_date tbl.

Definition created_time (tbl : string) : option string :=
  re_sub_class (lit "-") ":" <$> group0 regex_time tbl.

(** [d[k]], [None] for a KeyError. *)
Fixpoint dict_get {V} (d : dict V) (k : string) : option V :=
  match d with
  | [] => None
  | (k', v) :: d' => if bool_decide (k' = k) then Some v else dict_get d' k
  end.

(** The number of characters of class [p] in [s]. *)
Fixpoint count_chars (p : ascii → bool) (s : string) : nat :=
  match s with
  | "" => 0
  | String c s' => ((if p c then 1 else 0) + count_chars p s')%nat
  end.

(** The pattern and the colors of one entry of the key [highlight], when the
    entry unpacks into three values. *)
Definition highlight_entry (hlgt : string) : option (string * colors) :=
  match split_semicolon hlgt with
  | [val_to_be_colored; bkg_clr; txt_clr] =>
      Some (val_to_be_colored,
            {| background_color := bkg_clr; text_color := txt_clr |})
  | _ => None
  end.

(** The dict after the entries [es] have been set in turn. *)
Definition set_all (d : dict colors) (es : list (string * colors))
    : dict colors :=
  foldl (fun d e => dict_set d e.1 e.2) d es.

(** A text of [n] digits. *)
Definition digits (n : nat) (s : string) : Prop :=
  String.length s = n ∧ all_chars is_digit s.

(** A date and a time as the name of a file writes them. *)
Definition is_date (m : string) : Prop :=
  ∃ yyyy mm dd, m = yyyy +:+ "-" +:+ mm +:+ "-" +:+ dd ∧
    digits 4 yyyy ∧ digits 2 mm ∧ digits 2 dd.

Definition is_time (m : string) : Prop :=
  ∃ hh mm ss, m = " " +:+ hh +:+ "-" +:+ mm +:+ "-" +:+ ss ∧
    digits 2 hh ∧ digits 2 mm ∧ digits 2 ss.

(** ** The discovery of the files *)

Inductive os_name := posix | nt.

(** [os.sep] *)
Definition os_sep (os : os_name) : ascii :=
  match os with
  | posix => "/"%char
  | nt => "\"%char
  end.

Inductive os_exn :=
| OSError                  (* os.listdir on what is not a directory *)
| re_error                 (* re.compile on what is not a pattern *)
| IndexError               (* a list index out of range *)
| ValueError_not_in_list.  (* list.remove(x): x not in list *)

(** What a call comes to: a value, an exception, or, for the model of a loop
    that is cut after a number of steps, the end of these steps. *)
Inductive outcome (A : Type) :=
| Returns (a : A)
| Raises (e : os_exn)
| OutOfFuel.
Arguments Returns {A} a.
Arguments Raises {A} e.
Arguments OutOfFuel {A}.

Global Instance outcome_ret : MRet outcome := fun A a => Returns a.
Global Instance outcome_bind : MBind outcome := fun A B f r =>
  match r with
  | Returns a => f a
  | Raises e => Raises e
  | OutOfFuel => OutOfFuel
  end.

(** [re.split(c, s)] for a pattern that is the character [c]. *)
Fixpoint split_char (c : ascii) (s : string) : list string :=
  match s with
  | "" => [""]
  | String x s' =>
      if bool_decide (x = c) then "" :: split_char c s'
      else match split_char c s' with
           | [] => [String x ""]
           | w :: ws => String x w :: ws
           end
  end.

(** [$]: the end of the text, or the newline that ends the text. *)
Definition at_end (rest : list ascii) : bool :=
  bool_decide (rest = [] ∨ rest = ["010"%char]).

(** [re.search(pattern + '$', s)] as a truth value, for a pattern whose
    match at a position is unique. *)
Fixpoint search_at_end (re : Re.regex) (s : list ascii) : bool :=
  match Re.match_here re s with
  | Some m => at_end (drop (List.length m) s)
  | None => false
  end
  || match s with
     | [] => false
     | _ :: s' => search_at_end re s'
     end.

(** [re.search(re_hook, inp)] for [(?i)!(?:re)?(?:gex)?$]: the two optional
    groups allow four texts before the end. *)
Definition re_hook (inp : string) : bool :=
  existsb (fun alt => search_at_end (Re.literal_i alt) (chars inp))
          ["!"; "!re"; "!gex"; "!regex"].

(** The text before the leftmost match of [re] in [s]. *)
Fixpoint before_match (re : Re.regex) (s : list ascii)
    : option (list ascii) :=
  match Re.match_here re s with
  | Some _ => Some []
  | None =>
      match s with
      | [] => None
      | c :: s' => cons c <$> before_match re s'
      end
  end.

(** [\s*;\s*] *)
Definition regex_semicolon : Re.regex :=
  [Re.Atom is_space Re.Star; Re.Atom (lit ";") Re.One;
   Re.Atom is_space Re.Star].

(** [re.split(r'\s*;\s*', inp)[0]]: the whole text without a match. *)
Definition file_name_of (inp : string) : string :=
  match before_match regex_semicolon (chars inp) with
  | Some pre => string_of_list_ascii pre
  | None => inp
  end.

(** [l.remove(x)]: without the first [x], [None] for a ValueError. *)
Fixpoint list_remove_first (x : string) (l : list string)
    : option (list string) :=
  match l with
  | [] => None
  | y :: l' =>
      if bool_decide (y = x) then Some l'
      else cons y <$> list_remove_first x l'
  end.

(** [sorted(list(set(inps)))]: the order in which the set lists its elements
    is lost in the sort. *)
Definition sorted_set (inps : list string) : list string :=
  merge_sort String.le (remove_dups inps).

Section Files.

(** The environment of the script. *)
Variable os : os_name.
Variable expandvars : string → string.          (* os.path.expandvars *)
Variable normpath : string → string.            (* os.path.normpath *)
Variable listdir : string → option (list string).
                                  (* os.listdir, [None] for an OSError *)
Variable re_compile : string → option (string → bool).
                  (* re.compile, then re.search; [None] for a re.error *)
Variable isfile : string → bool.                (* os.path.isfile *)
Variable path_exists : string → bool.           (* os.path.exists *)

(** [concat_path_and_files] *)
Definition concat_path_and_files (the_path : string)
    (the_files : list string) : list string :=
  (fun _file =>
     let _file_w_path :=
       expandvars the_path +:+ "/" +:+ expandvars _file in
     re_sub_class (lit "\"%char) "/" _file_w_path)
  <$> the_files.

(** One turn of the loop of [expand_re]: what [inp] adds to the list. *)
Definition expand_one (inp : string) : outcome (list string) :=
  if re_hook inp then
    match split_char "!" inp with
    | _spl0 :: _spl1 :: _ =>
        let inp_path := normpath _spl0 in
        match re_compile _spl1 with
        | None => Raises re_error
        | Some re_inp =>
            match listdir inp_path with
            | None => Raises OSError
            | Some fs =>
                Returns ((fun f => inp_path +:+ "/" +:+ f)
                         <$> List.filter re_inp fs)
            end
        end
    | _ => Raises IndexError
    end
  else Returns [inp].

(** [expand_re] *)
Definition expand_re (inps : list string) : outcome (list string) :=
  expanded ← mapM expand_one inps;
  mret (List.concat expanded).

(** The first statement of [get_tidy_list]: every slash and backslash
    becomes [os.sep], which is what the replacement [re.escape(os.sep)]
    stands for. *)
Definition consistent_sep (inp : string) : string :=
  re_sub_class (fun c => lit "\"%char c || lit "/"%char c)
               (String (os_sep os) "") inp.

(** The loop of [get_tidy_list]. The list is the one the loop runs over: the
    loop reads the element at the index [i], whatever the removals have made
    of the list, and stops when [i] is past the end. *)
Fixpoint tidy_loop (fuel : nat) (inps : list string) (i : nat)
    : outcome (list string) :=
  match fuel with
  | O => OutOfFuel
  | S fuel' =>
      match inps !! i with
      | None => Returns inps
      | Some elem =>
          let inp := file_name_of elem in
          if isfile inp then tidy_loop fuel' inps (S i)
          else
            match list_remove_first inp inps with
            | Some inps' => tidy_loop fuel' inps' (S i)
            | None => Raises ValueError_not_in_list
            end
      end
  end.

(** [get_tidy_list] *)
Definition get_tidy_list (inps : list string) : outcome (list string) :=
  let inps := consistent_sep <$> inps in
  let inps := sorted_set inps in
  tidy_loop (S (List.length inps)) inps 0.

(** [identify_tbls], for the values of [the_yml['inp']['path']] and
    [the_yml['inp']['files']]. *)
Definition identify_tbls (inp_path : string) (inp_files : list string)
    : outcome (list string) :=
  let _inp_path := expandvars inp_path in
  let inps_to_be_expanded := concat_path_and_files _inp_path inp_files in
  inps ← expand_re inps_to_be_expanded;
  inps_tidy ← get_tidy_list inps;
  mret (List.filter
          (fun inp => negb (re_search_literal "~$" inp) && path_exists inp)
          inps_tidy).

End Files.

(** What the loop of [get_tidy_list] comes to on names without semicolon: a
    name that is not a file is dropped, and the name after it is kept without
    being looked at. *)
Fixpoint kept_names (isfile : string → bool) (inps : list string)
    : list string :=
  match inps with
  | [] => []
  | x :: rest =>
      if isfile x then x :: kept_names isfile rest
      else match rest with
           | [] => []
           | y :: rest' => y :: kept_names isfile rest'
           end
  end.

(** * Properties *)

(** ** Texts and lists of characters *)

Lemma chars_app a b : chars (a +:+ b) = chars a ++ chars b.
Proof.
  induction a as [|c a IH]; [done|].
  change (c :: chars (a +:+ b) = c :: (chars a ++ chars b)). by f_equal.
Qed.

Lemma of_chars_app l1 l2 :
  string_of_list_ascii (l1 ++ l2) =
  string_of_list_ascii l1 +:+ string_of_list_ascii l2.
Proof.
  induction l1 as [|c l1 IH]; [done|].
  change (String c (string_of_list_ascii (l1 ++ l2)) =
          String c (string_of_list_ascii l1 +:+ string_of_list_ascii l2)).
  by f_equal.
Qed.

Lemma chars_inj a b : chars a = chars b → a = b.
Proof.
  intros H. rewrite <-(string_of_list_ascii_of_string a),
    <-(string_of_list_ascii_of_string b). by f_equal.
Qed.

Lemma chars_split3 w l1 l2 l3 :
  chars w = l1 ++ l2 ++ l3 →
  w = string_of_list_ascii l1 +:+ string_of_list_ascii l2
        +:+ string_of_list_ascii l3.
Proof.
  intros H. apply chars_inj.
  by rewrite !chars_app, !list_ascii_of_string_of_list_ascii.
Qed.

(** ** The matcher *)

Module ReFacts.
Import Re.

Lemma greedy_sound k p lo s r :
  greedy k p lo s = Some r →
  ∃ m1 m2 rest, r = m1 ++ m2 ∧ s = m1 ++ rest ∧
    Forall (fun c => p c = true) m1 ∧ (lo ≤ List.length m1)%nat ∧
    k rest = Some m2.
Proof.
  revert lo r. induction s as [|c s IH]; intros lo r; simpl.
  - destruct lo; [|done]. intros Hk.
    exists [], r, []. by repeat split.
  - assert (Hstop : match lo with O => k (c :: s) | S _ => None end = Some r →
      ∃ m1 m2 rest, r = m1 ++ m2 ∧ c :: s = m1 ++ rest ∧
        Forall (fun c => p c = true) m1 ∧ (lo ≤ List.length m1)%nat ∧
        k rest = Some m2).
    { destruct lo; [|done]. intros Hk.
      exists [], r, (c :: s). by repeat split. }
    destruct (p c) eqn:Hp; [|done].
    destruct (greedy k p (pred lo) s) as [m|] eqn:Hg; [|done].
    intros [= <-].
    destruct (IH _ _ Hg) as (m1 & m2 & rest & -> & -> & Hall & Hlo & Hk).
    exists (c :: m1), m2, rest. repeat split; [by constructor| simpl; lia | done].
Qed.

Lemma greedy_complete k p lo m1 rest :
  Forall (fun c => p c = true) m1 → (lo ≤ List.length m1)%nat →
  is_Some (k rest) → is_Some (greedy k p lo (m1 ++ rest)).
Proof.
  intros Hall. revert lo. induction Hall as [|c m1 Hc Hall IH]; intros lo Hlo Hk.
  - simpl in Hlo. assert (lo = 0%nat) as -> by lia.
    destruct rest as [|c rest]; simpl; [done|].
    destruct (p c); [|done].
    by destruct (greedy k p 0 rest).
  - simpl. rewrite Hc.
    destruct (IH (pred lo)) as [m Hm]; [simpl in Hlo; lia | done |].
    rewrite Hm. by eexists.
Qed.

Lemma match_here_sound re s m :
  match_here re s = Some m → matches re m ∧ ∃ rest, s = m ++ rest.
Proof.
  revert s m. induction re as [|a re IH]; intros s m; simpl.
  - intros [= <-]. split; [constructor | by exists s].
  - destruct (rep a) eqn:Hrep.
    + destruct s as [|c s]; [done|].
      destruct (cls a c) eqn:Hc; [|done].
      destruct (match_here re s) as [m'|] eqn:Hm; [|done].
      intros [= <-]. destruct (IH _ _ Hm) as [Hre [rest ->]].
      split; [|by exists rest].
      apply (matches_cons a re [c] m'); [|done].
      split; [by repeat constructor | by rewrite Hrep].
    + intros Hg.
      destruct (greedy_sound _ _ _ _ _ Hg) as (m1 & m2 & rest & -> & -> & Hall & Hlo & Hk).
      destruct (IH _ _ Hk) as [Hre [rest' ->]].
      split; [|exists rest'; by rewrite <-(assoc_L (++))].
      constructor; [|done]. split; [done | by rewrite Hrep].
    + intros Hg.
      destruct (greedy_sound _ _ _ _ _ Hg) as (m1 & m2 & rest & -> & -> & Hall & Hlo & Hk).
      destruct (IH _ _ Hk) as [Hre [rest' ->]].
      split; [|exists rest'; by rewrite <-(assoc_L (++))].
      constructor; [|done]. split; [done | by rewrite Hrep].
Qed.

Lemma match_here_complete re m rest :
  matches re m → is_Some (match_here re (m ++ rest)).
Proof.
  intros Hm. revert rest. induction Hm as [|a re m1 m2 [Hall Hrep] Hm IH]; intros rest.
  - by eexists.
  - simpl. rewrite <-(assoc_L (++)). destruct (rep a).
    + destruct m1 as [|c [|??]]; simplify_eq/=.
      apply Forall_cons in Hall as [-> _].
      destruct (IH rest) as [m' ->]. by eexists.
    + by apply greedy_complete.
    + apply greedy_complete; [done | lia | done].
Qed.

(** The match found by [search] starts where no earlier position has one. *)
Lemma search_Some re s m :
  search re s = Some m →
  ∃ pre rest, s = pre ++ rest ∧ match_here re rest = Some m ∧
    ∀ pre1 pre2, pre = pre1 ++ pre2 → pre2 ≠ [] →
      match_here re (pre2 ++ rest) = None.
Proof.
  induction s as [|c s IH]; simpl.
  - destruct (match_here re []) as [m'|] eqn:Hm; [|done].
    intros [= <-]. exists [], []. split_and!; [done..|].
    intros pre1 pre2 Hp. by destruct pre1, pre2.
  - destruct (match_here re (c :: s)) as [m'|] eqn:Hm.
    + intros [= <-]. exists [], (c :: s). split_and!; [done..|].
      intros pre1 pre2 Hp. by destruct pre1, pre2.
    + intros Hs. destruct (IH Hs) as (pre & rest & -> & Hrest & Hleft).
      exists (c :: pre), rest. split_and!; [done..|].
      intros [|c1 pre1] pre2 Hp Hne; simplify_eq/=; [done|].
      by eapply Hleft.
Qed.

Lemma search_None re s :
  search re s = None ↔ ∀ pre rest, s = pre ++ rest → match_here re rest = None.
Proof.
  split.
  - induction s as [|c s IH]; simpl.
    + destruct (match_here re []) eqn:Hm; [done|].
      intros _ pre rest Hs. symmetry in Hs.
      apply app_eq_nil in Hs as [-> ->]. done.
    + destruct (match_here re (c :: s)) eqn:Hm; [done|].
      intros Hs [|c1 pre] rest Heq; simplify_eq/=; [done|].
      by eapply IH.
  - induction s as [|c s IH]; intros H; simpl.
    + by rewrite (H [] []).
    + rewrite (H [] (c :: s)) by done. apply IH.
      intros pre rest ->. by apply (H (c :: pre)).
Qed.

Lemma search_sound re s m :
  search re s = Some m → matches re m ∧ ∃ pre post, s = pre ++ m ++ post.
Proof.
  intros Hs. destruct (search_Some _ _ _ Hs) as (pre & rest & -> & Hm & _).
  destruct (match_here_sound _ _ _ Hm) as [Hre [post ->]]. eauto.
Qed.

Lemma search_complete re pre m post :
  matches re m → is_Some (search re (pre ++ m ++ post)).
Proof.
  intros Hm. destruct (search re (pre ++ m ++ post)) eqn:Hs; [by eexists|].
  rewrite search_None in Hs. specialize (Hs pre (m ++ post) eq_refl).
  destruct (match_here_complete re m post Hm) as [? ?]. congruence.
Qed.

Lemma search_is_Some re s :
  is_Some (search re s) ↔ ∃ pre m post, s = pre ++ m ++ post ∧ matches re m.
Proof.
  split.
  - intros [m Hs]. destruct (search_sound _ _ _ Hs) as [? (pre & post & ->)].
    by exists pre, m, post.
  - intros (pre & m & post & -> & Hm). by apply search_complete.
Qed.

(** *** A single class, taken once *)

Lemma match_here_One p s :
  match_here [Atom p One] s =
  match s with
  | c :: _ => if p c then Some [c] else None
  | [] => None
  end.
Proof. destruct s as [|c s]; simpl; [done|]. by destruct (p c). Qed.

Lemma search_One p s m :
  search [Atom p One] s = Some m →
  ∃ c pre post, m = [c] ∧ s = pre ++ c :: post ∧ p c = true ∧
    Forall (fun x => p x = false) pre.
Proof.
  intros Hs. destruct (search_Some _ _ _ Hs) as (pre & rest & -> & Hm & Hleft).
  rewrite match_here_One in Hm. destruct rest as [|c post]; [done|].
  destruct (p c) eqn:Hc; [|done]. injection Hm as <-.
  exists c, pre, post. split_and!; [done..|].
  apply Forall_forall. intros x Hx.
  apply list_elem_of_split in Hx as (pre1 & pre2 & ->).
  specialize (Hleft pre1 (x :: pre2) eq_refl).
  rewrite match_here_One in Hleft. simpl in Hleft.
  destruct (p x); [|done]. by discriminate Hleft.
Qed.

(** *** A single class, repeated with [+] *)

Lemma greedy_total k p s :
  (∀ s', is_Some (k s')) → is_Some (greedy k p 0 s).
Proof.
  intros Hk. induction s as [|c s IH]; simpl; [done|].
  destruct (p c); [|done]. by destruct (greedy k p 0 s).
Qed.

Lemma greedy_longest p lo s m :
  greedy (fun _ => Some []) p lo s = Some m →
  ∃ rest, s = m ++ rest ∧ (lo ≤ List.length m)%nat ∧
    Forall (fun c => p c = true) m ∧
    ∀ c rest', rest = c :: rest' → p c = false.
Proof.
  revert lo m. induction s as [|c s IH]; intros lo m; simpl.
  - destruct lo; [|done]. intros [= <-]. exists []. by split_and!.
  - destruct (p c) eqn:Hc.
    + destruct (greedy (fun _ => Some []) p (pred lo) s) as [m'|] eqn:Hg.
      * intros [= <-]. destruct (IH _ _ Hg) as (rest & -> & Hlo & Hall & Hhd).
        exists rest. split_and!; [done | simpl; lia | by constructor | done].
      * destruct lo; [|done]. simpl in Hg.
        destruct (greedy_total (fun _ => Some []) p s) as [? ?]; [by eexists|].
        congruence.
    + destruct lo; [|done]. intros [= <-]. exists (c :: s).
      split_and!; [done | simpl; lia | done |]. by intros ?? [= <- <-].
Qed.

Lemma match_here_Plus p s m :
  match_here [Atom p Plus] s = Some m →
  ∃ rest, s = m ++ rest ∧ m ≠ [] ∧ Forall (fun c => p c = true) m ∧
    ∀ c rest', rest = c :: rest' → p c = false.
Proof.
  intros Hg. apply greedy_longest in Hg as (rest & -> & Hlo & Hall & Hhd).
  exists rest. split_and!; [done| |done..]. intros ->. simpl in Hlo. lia.
Qed.

Lemma match_here_Plus_None p c s :
  match_here [Atom p Plus] (c :: s) = None → p c = false.
Proof.
  simpl. destruct (p c); [|done].
  destruct (greedy_total (fun _ => Some []) p s) as [? ->]; [by eexists|done].
Qed.

Lemma search_Plus p s m :
  search [Atom p Plus] s = Some m →
  ∃ pre post, s = pre ++ m ++ post ∧ m ≠ [] ∧
    Forall (fun c => p c = true) m ∧ Forall (fun c => p c = false) pre ∧
    ∀ c post', post = c :: post' → p c = false.
Proof.
  intros Hs. destruct (search_Some _ _ _ Hs) as (pre & rest & -> & Hm & Hleft).
  apply match_here_Plus in Hm as (post & -> & Hne & Hall & Hhd).
  exists pre, post. split_and!; [done..| |done].
  apply Forall_forall. intros x Hx.
  apply list_elem_of_split in Hx as (pre1 & pre2 & ->).
  specialize (Hleft pre1 (x :: pre2) eq_refl).
  eapply match_here_Plus_None. apply Hleft. done.
Qed.

(** *** Literal patterns *)

Lemma matches_lits (f : ascii → ascii → bool) (pat m : list ascii) :
  matches ((fun c => Atom (f c) One) <$> pat) m ↔
  Forall2 (fun c x => f c x = true) pat m.
Proof.
  split.
  - revert m. induction pat as [|c pat IH]; intros m Hm; inversion Hm; simplify_eq/=.
    + constructor.
    + destruct H1 as [Hall Hlen]. simpl in Hlen.
      destruct m1 as [|x [|??]]; simplify_eq/=.
      apply Forall_cons in Hall as [Hx _]. constructor; [done | by apply IH].
  - induction 1 as [|c x pat m Hx _ IH]; simpl; [constructor|].
    apply (matches_cons _ _ [x] m); [|done].
    split; [by repeat constructor | done].
Qed.

End ReFacts.

(** ** Labels *)

Lemma Forall2_lit_i (pat m : list ascii) :
  Forall2 (fun c x => lit_i c x = true) pat m ↔
  to_lower <$> m = to_lower <$> pat.
Proof.
  unfold lit_i. split.
  - induction 1 as [|c x pat m Hx _ IH]; [done|].
    apply bool_decide_eq_true in Hx. simpl. by f_equal.
  - revert m. induction pat as [|c pat IH]; intros [|x m] H; simplify_eq/=;
      constructor; [by apply bool_decide_eq_true | by apply IH].
Qed.

Lemma pos_neg_ctrls_true content :
  pos_neg_ctrls content = true ↔
  ∃ pre mid post, content = pre +:+ mid +:+ post ∧ lower mid = "ctrl".
Proof.
  unfold pos_neg_ctrls, str_contains, Re.literal_i.
  rewrite bool_decide_eq_true, ReFacts.search_is_Some. split.
  - intros (pre & m & post & Hc & Hm).
    apply ReFacts.matches_lits, Forall2_lit_i in Hm.
    exists (string_of_list_ascii pre), (string_of_list_ascii m),
      (string_of_list_ascii post).
    split; [by apply chars_split3|].
    unfold lower. by rewrite list_ascii_of_string_of_list_ascii, Hm.
  - intros (pre & mid & post & -> & Hl).
    exists (chars pre), (chars mid), (chars post).
    split; [by rewrite !chars_app|].
    apply ReFacts.matches_lits, Forall2_lit_i.
    unfold lower in Hl. apply (f_equal chars) in Hl.
    by rewrite list_ascii_of_string_of_list_ascii in Hl.
Qed.

(** C6. The control marker of a line is true exactly when its content holds
    "ctrl" in any letter case; the label of the line is its content when the
    marker is true and its sample otherwise. "Neg Ctrl" with sample "UT55" is
    labelled "Neg Ctrl", "Unkn" with sample "UT55" is labelled "UT55". *)
Theorem label_of_control :
  (∀ content, pos_neg_ctrls content = true ↔
     ∃ pre mid post, content = pre +:+ mid +:+ post ∧ lower mid = "ctrl")
  ∧ (∀ rec, pos_neg_ctrls (Content rec) = true → Label_of rec = Content rec)
  ∧ (∀ rec, pos_neg_ctrls (Content rec) = false → Label_of rec = Sample rec)
  ∧ (∀ w, Label_of (well_record w "Neg Ctrl" "UT55") = "Neg Ctrl")
  ∧ (∀ w, Label_of (well_record w "Unkn" "UT55") = "UT55")
  ∧ pos_neg_ctrls "Pos Ctrl" = true
  ∧ pos_neg_ctrls "pos ctrl" = true
  ∧ pos_neg_ctrls "UT100" = false.
Proof.
  split_and!; try done.
  - apply pos_neg_ctrls_true.
  - intros rec H. unfold Label_of, Label_of_ctrls. by rewrite H.
  - intros rec H. unfold Label_of, Label_of_ctrls. by rewrite H.
Qed.

Lemma label_of_control_witness :
  Label_of (well_record "H12" "NEG CTRL" "x") = "NEG CTRL"
  ∧ Label_of (well_record "A01" "Unkn" "UT100") = "UT100".
Proof.
  split.
  - apply (proj1 (proj2 label_of_control) (well_record "H12" "NEG CTRL" "x")).
    reflexivity.
  - apply (proj1 (proj2 (proj2 label_of_control)) (well_record "A01" "Unkn" "UT100")).
    reflexivity.
Defined.

(** ** Wells *)

Lemma str_extract_One p well r :
  str_extract [Re.Atom p Re.One] well = Some r →
  ∃ c pre post, r = String c "" ∧ well = pre +:+ r +:+ post ∧
    p c = true ∧ no_chars p pre.
Proof.
  unfold str_extract. intros H.
  apply fmap_Some in H as (m & Hs & ->).
  apply ReFacts.search_One in Hs as (c & pre & post & -> & Hw & Hc & Hpre).
  exists c, (string_of_list_ascii pre), (string_of_list_ascii post).
  split_and!; [done | by apply (chars_split3 _ pre [c] post) | done |].
  unfold no_chars. by rewrite list_ascii_of_string_of_list_ascii.
Qed.

Lemma str_extract_Plus p well ds :
  str_extract [Re.Atom p Re.Plus] well = Some ds →
  ∃ pre post, well = pre +:+ ds +:+ post ∧ ds ≠ "" ∧ all_chars p ds ∧
    no_chars p pre ∧ not_starting p post.
Proof.
  unfold str_extract. intros H.
  apply fmap_Some in H as (m & Hs & ->).
  apply ReFacts.search_Plus in Hs as (pre & post & Hw & Hne & Hall & Hpre & Hhd).
  exists (string_of_list_ascii pre), (string_of_list_ascii post).
  split_and!.
  - by apply chars_split3.
  - by destruct m.
  - unfold all_chars. by rewrite list_ascii_of_string_of_list_ascii.
  - unfold no_chars. by rewrite list_ascii_of_string_of_list_ascii.
  - intros c post' Hp. apply (Hhd c (chars post')).
    apply (f_equal chars) in Hp.
    by rewrite list_ascii_of_string_of_list_ascii in Hp.
Qed.

Lemma is_alpha_not_digit c : is_alpha c = true → is_digit c = false.
Proof.
  unfold is_alpha, is_lower, is_upper, is_digit, in_range.
  destruct (N.leb_spec 48 (code c)), (N.leb_spec (code c) 57),
    (N.leb_spec 97 (code c)), (N.leb_spec (code c) 122),
    (N.leb_spec 65 (code c)), (N.leb_spec (code c) 90); simpl; try done; lia.
Qed.

Lemma is_digit_value c : is_digit c = true → 0 ≤ digit_value c ≤ 9.
Proof.
  unfold is_digit, in_range, digit_value. intros H.
  apply andb_true_iff in H as [H1%N.leb_le H2%N.leb_le]. lia.
Qed.

(** A text without a character of class [p] that is followed by such a
    character is the longest such prefix. *)
Lemma prefix_without (p : ascii → bool) l1 x l2 d y :
  l1 ++ x = l2 ++ d :: y →
  Forall (fun c => p c = false) l1 → Forall (fun c => p c = false) l2 →
  p d = true → ∃ mid, l2 = l1 ++ mid.
Proof.
  revert l2. induction l1 as [|a l1 IH]; intros l2 Heq H1 H2 Hd; [by exists l2|].
  apply Forall_cons in H1 as [Ha H1].
  destruct l2 as [|b l2]; simpl in Heq; injection Heq as -> Heq; [congruence|].
  apply Forall_cons in H2 as [_ H2].
  destruct (IH l2 Heq H1 H2 Hd) as [mid ->]. by exists mid.
Qed.

Lemma parse_well_two_digits a d1 d2 :
  in_range 65 72 a = true → is_digit d1 = true → is_digit d2 = true →
  parse_well (String a (String d1 (String d2 ""))) =
  Ok (Some (String a ""), 10 * digit_value d1 + digit_value d2).
Proof.
  intros Ha H1 H2.
  assert (is_alpha a = true) as Halpha.
  { unfold is_alpha, is_upper, in_range in *.
    apply andb_true_iff in Ha as [?%N.leb_le ?%N.leb_le].
    apply orb_true_iff. right.
    apply andb_true_iff. split; apply N.leb_le; lia. }
  pose proof (is_alpha_not_digit _ Halpha) as Hnd.
  pose proof (is_digit_value _ H1). pose proof (is_digit_value _ H2).
  unfold parse_well, Well_col_of, Well_row_of, str_extract, regex_col, regex_row.
  simpl. rewrite Halpha, Hnd, H1, H2. simpl.
  unfold int_of_digits. simpl.
  destruct (Z.leb_spec (10 * (10 * 0 + digit_value d1) + digit_value d2) int64_max) as [_|Hlt].
  - replace (10 * (10 * 0 + digit_value d1) + digit_value d2)
      with (10 * digit_value d1 + digit_value d2) by lia.
    done.
  - unfold int64_max in Hlt. lia.
Qed.

Lemma parse_well_one_digit a d :
  in_range 65 72 a = true → is_digit d = true →
  parse_well (String a (String d "")) = Ok (Some (String a ""), digit_value d).
Proof.
  intros Ha H1.
  assert (is_alpha a = true) as Halpha.
  { unfold is_alpha, is_upper, in_range in *.
    apply andb_true_iff in Ha as [?%N.leb_le ?%N.leb_le].
    apply orb_true_iff. right.
    apply andb_true_iff. split; apply N.leb_le; lia. }
  pose proof (is_alpha_not_digit _ Halpha) as Hnd.
  pose proof (is_digit_value _ H1).
  unfold parse_well, Well_col_of, Well_row_of, str_extract, regex_col, regex_row.
  simpl. rewrite Halpha, Hnd, H1. simpl.
  unfold int_of_digits. simpl.
  destruct (Z.leb_spec (10 * 0 + digit_value d) int64_max) as [_|Hlt].
  - replace (10 * 0 + digit_value d) with (digit_value d) by lia.
    done.
  - unfold int64_max in Hlt. lia.
Qed.

(** C7, as the script has it. The row is the first letter of the well and
    the column is read from the leftmost run of digits of the well, wherever
    the run stands: it follows the letter whenever no digit stands before the
    letter. The run is read in base 10, and is refused above the largest
    int64. For a letter from A to H followed by two digits the column is the
    number the digits write, a leading zero not counting:
    "A01" is (A, 1) and "A12" is (A, 12). *)
Theorem parse_well_extractions :
  (∀ well r ds,
     str_extract regex_row well = Some r →
     str_extract regex_col well = Some ds →
     (∃ c pre post, r = String c "" ∧ well = pre +:+ r +:+ post ∧
        is_alpha c = true ∧ no_chars is_alpha pre ∧
        (no_chars is_digit pre →
         ∃ mid post', post = mid +:+ ds +:+ post' ∧ no_chars is_digit mid))
     ∧ (∃ pre post, well = pre +:+ ds +:+ post ∧ ds ≠ "" ∧
          all_chars is_digit ds ∧ no_chars is_digit pre ∧
          not_starting is_digit post)
     ∧ parse_well well =
         (if int_of_digits ds <=? int64_max
          then Ok (Some r, int_of_digits ds)
          else Raise OverflowError_int_too_large))
  ∧ (∀ a d1 d2,
       in_range 65 72 a = true → is_digit d1 = true → is_digit d2 = true →
       parse_well (String a (String d1 (String d2 ""))) =
       Ok (Some (String a ""), 10 * digit_value d1 + digit_value d2))
  ∧ (∀ a d,
       in_range 65 72 a = true → is_digit d = true →
       parse_well (String a (String "0" (String d ""))) =
       parse_well (String a (String d "")))
  ∧ parse_well "A01" = Ok (Some "A", 1)
  ∧ parse_well "A12" = Ok (Some "A", 12).
Proof.
  split_and!; [| apply parse_well_two_digits | | done..].
  - intros well r ds Hr Hd. split_and!.
    + destruct (str_extract_One _ _ _ Hr) as (c & pre & post & -> & Hw & Hc & Hpre).
      exists c, pre, post. split_and!; [done..|].
      intros Hnd.
      destruct (str_extract_Plus _ _ _ Hd) as (pre' & post' & Hw' & Hne & Hall & Hpre' & Hhd).
      destruct ds as [|d ds]; [done|].
      assert (Hd1 : is_digit d = true) by (by inversion Hall).
      assert (Heq : (chars pre ++ [c]) ++ chars post
                    = chars pre' ++ d :: (chars ds ++ chars post')).
      { rewrite <-(assoc_L (++)).
        change (chars pre ++ chars (String c "") ++ chars post
                = chars pre' ++ chars (String d ds) ++ chars post').
        rewrite <-!chars_app. by rewrite <-Hw, <-Hw'. }
      destruct (prefix_without is_digit _ _ _ _ _ Heq) as [mid Hmid]; [|done..|].
      { apply Forall_app. split; [done|].
        repeat constructor. by apply is_alpha_not_digit. }
      rewrite Hmid, <-!(assoc_L (++)) in Heq.
      apply app_inv_head in Heq. simpl in Heq. injection Heq as Heq.
      exists (string_of_list_ascii mid), post'. split.
      * apply chars_inj. rewrite Heq, !chars_app.
        by rewrite list_ascii_of_string_of_list_ascii.
      * unfold no_chars in *. rewrite list_ascii_of_string_of_list_ascii.
        rewrite Hmid in Hpre'. by apply Forall_app in Hpre' as [_ ?].
    + by apply str_extract_Plus.
    + unfold parse_well, Well_col_of, Well_row_of, astype_int64.
      rewrite Hd, Hr. by destruct (int_of_digits ds <=? int64_max).
  - intros a d Ha Hd.
    rewrite parse_well_two_digits, parse_well_one_digit by done.
    do 2 f_equal.
Qed.

Lemma parse_well_extractions_witness :
  parse_well "B07" = Ok (Some "B", 7)
  ∧ parse_well "H10" = Ok (Some "H", 10).
Proof.
  split.
  - destruct (proj1 parse_well_extractions "B07" "B" "07") as (_ & _ & H);
      [reflexivity | reflexivity | exact H].
  - apply (proj1 (proj2 parse_well_extractions) "H"%char "1"%char "0"%char);
      reflexivity.
Defined.

(** C7, against its wording: in "1A2" both extractions succeed, the first
    letter is A, and the column is 1, read before the letter, not the 2 that
    follows it. *)
Lemma parse_well_digits_before_letter :
  str_extract regex_row "1A2" = Some "A"
  ∧ str_extract regex_col "1A2" = Some "1"
  ∧ parse_well "1A2" = Ok (Some "A", 1)
  ∧ parse_well "1A2" ≠ Ok (Some "A", 2).
Proof. by split_and!. Qed.

(** ** Groups of labels *)

Lemma matches_regex_group m :
  Re.matches regex_group m ↔
  ∃ a ws b, m = a ++ ws ++ b ∧ a ≠ [] ∧ b ≠ [] ∧
    Forall (fun c => is_alpha c = true) a ∧
    Forall (fun c => is_space c = true) ws ∧
    Forall (fun c => is_alpha c = true) b.
Proof.
  unfold regex_group. split.
  - intros H. inversion H as [|? ? a m1 [Ha Hla] H1]; subst.
    inversion H1 as [|? ? ws m2 [Hws _] H2]; subst.
    inversion H2 as [|? ? b m3 [Hb Hlb] H3]; subst.
    inversion H3; subst. simpl in *.
    exists a, ws, b. rewrite (right_id_L [] (++)).
    split_and!; [done| | |done..]; intros ->; simpl in *; lia.
  - intros (a & ws & b & -> & Hna & Hnb & Ha & Hws & Hb).
    constructor; [split; [done|] |].
    { simpl. destruct a; [done | simpl; lia]. }
    constructor; [done|].
    rewrite <-(right_id_L [] (++) b).
    constructor; [split; [done|] | constructor].
    simpl. destruct b; [done | simpl; lia].
Qed.

Lemma str_extract_None re s :
  str_extract re s = None ↔ Re.search re (chars s) = None.
Proof. unfold str_extract. apply fmap_None. Qed.

Lemma alpha_not_space c : is_alpha c = true → is_space c = false.
Proof. destruct c as [[] [] [] [] [] [] [] []]; by vm_compute. Qed.

(** What [greedy] returns is the first success of its attempts: the
    continuation fails after every longer run. *)
Lemma greedy_first k p lo s r :
  Re.greedy k p lo s = Some r →
  ∃ m1 m2 rest, r = m1 ++ m2 ∧ s = m1 ++ rest ∧
    Forall (fun c => p c = true) m1 ∧ (lo ≤ List.length m1)%nat ∧
    k rest = Some m2 ∧
    ∀ m1' rest', s = m1' ++ rest' → Forall (fun c => p c = true) m1' →
      (List.length m1 < List.length m1')%nat → k rest' = None.
Proof.
  revert lo r. induction s as [|c s IH]; intros lo r; simpl.
  - destruct lo; [|done]. intros Hk.
    exists [], r, []. split_and!; [done..|].
    intros m1' rest' Heq _ Hlt. symmetry in Heq.
    apply app_eq_nil in Heq as [-> _]. simpl in Hlt. lia.
  - destruct (p c) eqn:Hp.
    + destruct (Re.greedy k p (pred lo) s) as [m|] eqn:Hg.
      * intros [= <-].
        destruct (IH _ _ Hg) as (m1 & m2 & rest & -> & -> & Hall & Hlo & Hk & Hmax).
        exists (c :: m1), m2, rest.
        split_and!; [done | done | by constructor | simpl; lia | done |].
        intros m1' rest' Heq Hall' Hlt.
        destruct m1' as [|c' m1']; [simpl in Hlt; lia|].
        simpl in Heq. injection Heq as _ Heq.
        apply Forall_cons in Hall' as [_ Hall'].
        apply (Hmax m1' rest'); [done | done | simpl in Hlt; lia].
      * destruct lo; [|done]. intros Hk.
        exists [], r, (c :: s). split_and!; [done..|].
        intros m1' rest' Heq Hall' Hlt.
        destruct m1' as [|c' m1']; [simpl in Hlt; lia|].
        simpl in Heq. injection Heq as _ Heq.
        apply Forall_cons in Hall' as [_ Hall'].
        destruct (k rest') as [m'|] eqn:Hk'; [|done]. exfalso.
        destruct (ReFacts.greedy_complete k p (pred 0) m1' rest' Hall')
          as [m'' Hm'']; [simpl; lia | by rewrite Hk' |].
        rewrite <-Heq in Hm''. congruence.
    + destruct lo; [|done]. intros Hk.
      exists [], r, (c :: s). split_and!; [done..|].
      intros m1' rest' Heq Hall' Hlt.
      destruct m1' as [|c' m1']; [simpl in Hlt; lia|].
      simpl in Heq. injection Heq as <- _.
      apply Forall_cons in Hall' as [Hc _]. congruence.
Qed.

(** The group that starts at the head of a text. *)
Lemma match_here_regex_group s m :
  Re.match_here regex_group s = Some m →
  ∃ a ws b post,
    m = a ++ ws ++ b ∧ s = m ++ post ∧ a ≠ [] ∧ b ≠ [] ∧
    Forall (fun c => is_alpha c = true) a ∧
    Forall (fun c => is_space c = true) ws ∧
    Forall (fun c => is_alpha c = true) b ∧
    (∀ c post', post = c :: post' → is_alpha c = false) ∧
    (ws = [] →
     ∀ ws' y post', post = ws' ++ y :: post' →
       Forall (fun c => is_space c = true) ws' → is_alpha y = false).
Proof.
  intros Hm.
  change (Re.match_here regex_group s) with
    (Re.greedy (Re.match_here [Re.Atom is_space Re.Star; Re.Atom is_alpha Re.Plus])
       is_alpha 1 s) in Hm.
  apply greedy_first in Hm
    as (a & m2 & rest & -> & -> & Ha & Hla & Hk & Hmax).
  change (Re.match_here [Re.Atom is_space Re.Star; Re.Atom is_alpha Re.Plus] rest)
    with (Re.greedy (Re.match_here [Re.Atom is_alpha Re.Plus]) is_space 0 rest) in Hk.
  apply ReFacts.greedy_sound in Hk as (ws & b & rest2 & -> & -> & Hws & _ & Hb).
  apply ReFacts.match_here_Plus in Hb as (post & -> & Hnb & Hb & Hpost).
  exists a, ws, b, post.
  split_and!; [done | by rewrite <-!(assoc_L (++)) | | done..|].
  { intros ->. simpl in Hla. lia. }
  intros -> ws' y post' -> Hws'.
  destruct (is_alpha y) eqn:Hy; [|done]. exfalso.
  assert (Re.match_here [Re.Atom is_space Re.Star; Re.Atom is_alpha Re.Plus]
            (ws' ++ y :: post') = None) as Hfail.
  { apply (Hmax (a ++ b)).
    - simpl. by rewrite <-(assoc_L (++)).
    - by apply Forall_app.
    - rewrite length_app. destruct b; [done | simpl; lia]. }
  destruct (ReFacts.match_here_complete
              [Re.Atom is_space Re.Star; Re.Atom is_alpha Re.Plus]
              (ws' ++ [y]) post') as [m' Hm'].
  { constructor; [by split|].
    rewrite <-(right_id_L [] (++) [y]).
    constructor; [split; [by repeat constructor | simpl; lia] | constructor]. }
  rewrite <-(assoc_L (++)) in Hm'. cbn [app] in Hm'. congruence.
Qed.

(** The match of [search] starts where no earlier match of the pattern
    does. *)
Lemma search_first re s m :
  Re.search re s = Some m →
  ∃ pre rest, s = pre ++ rest ∧ Re.match_here re rest = Some m ∧
    ∀ pre1 m1 post1, s = pre1 ++ m1 ++ post1 → Re.matches re m1 →
      (List.length pre ≤ List.length pre1)%nat.
Proof.
  intros Hs. destruct (ReFacts.search_Some _ _ _ Hs) as (pre & rest & -> & Hm & Hleft).
  exists pre, rest. split_and!; [done..|].
  intros pre1 m1 post1 Heq Hm1.
  destruct (decide (List.length pre ≤ List.length pre1)%nat) as [|Hlt]; [done|].
  exfalso.
  assert (Hpre : pre = pre1 ++ drop (List.length pre1) pre).
  { rewrite <-(take_drop (List.length pre1) pre) at 1. f_equal.
    apply (f_equal (take (List.length pre1))) in Heq.
    rewrite take_app_le in Heq by lia.
    by rewrite take_app_length in Heq. }
  specialize (Hleft pre1 (drop (List.length pre1) pre) Hpre).
  rewrite Hpre, <-(assoc_L (++)) in Heq. apply app_inv_head in Heq.
  rewrite Heq in Hleft.
  destruct (ReFacts.match_here_complete re m1 post1 Hm1) as [? Hsome].
  rewrite Hleft in Hsome; [done|].
  intros Hnil. apply (f_equal List.length) in Hnil.
  rewrite length_drop in Hnil. simpl in Hnil. lia.
Qed.

Lemma run_after_run p s : s = run p s ++ after_run p s.
Proof.
  induction s as [|c s IH]; simpl; [done|].
  destruct (p c); simpl; [by f_equal | done].
Qed.

Lemma Forall_run p s : Forall (fun c => p c = true) (run p s).
Proof.
  induction s as [|c s IH]; simpl; [constructor|].
  destruct (p c) eqn:Hc; by constructor.
Qed.

Lemma run_app_stop p l r :
  Forall (fun c => p c = true) l →
  (∀ c r', r = c :: r' → p c = false) →
  run p (l ++ r) = l ∧ after_run p (l ++ r) = r.
Proof.
  intros Hl Hr. induction Hl as [|c l Hc Hl [IH1 IH2]]; simpl.
  - destruct r as [|c r]; [done|]. simpl. by rewrite (Hr c r).
  - rewrite Hc. by rewrite IH1, IH2.
Qed.

(** The group at the head of a text is computed from the runs of the text. *)
Lemma group_from_eq a ws b post :
  a ≠ [] → b ≠ [] →
  Forall (fun c => is_alpha c = true) a →
  Forall (fun c => is_space c = true) ws →
  Forall (fun c => is_alpha c = true) b →
  (∀ c post', post = c :: post' → is_alpha c = false) →
  (ws = [] →
   ∀ ws' y post', post = ws' ++ y :: post' →
     Forall (fun c => is_space c = true) ws' → is_alpha y = false) →
  group_from ((a ++ ws ++ b) ++ post) = a ++ ws ++ b.
Proof.
  intros Hna Hnb Ha Hws Hb Hpost Hnone.
  destruct ws as [|w ws].
  - change (a ++ [] ++ b) with (a ++ b).
    destruct (run_app_stop is_alpha (a ++ b) post) as [H1 H2];
      [by apply Forall_app | done |].
    unfold group_from. rewrite H1, H2.
    destruct (after_run is_space post) as [|y post'] eqn:Hafter; [done|].
    simpl. rewrite (Hnone eq_refl (run is_space post) y post'); [done | |].
    + rewrite <-Hafter. apply run_after_run.
    + apply Forall_run.
  - apply Forall_cons in Hws as Hws'. destruct Hws' as [Hw Hws'].
    destruct b as [|y b]; [done|]. apply Forall_cons in Hb as Hb'.
    destruct Hb' as [Hy Hb'].
    rewrite <-!(assoc_L (++)).
    destruct (run_app_stop is_alpha a ((w :: ws) ++ (y :: b) ++ post)) as [H1 H2];
      [done | |].
    { intros c r' [= <- _].
      destruct (is_alpha w) eqn:Hw'; [|done].
      apply alpha_not_space in Hw'. congruence. }
    destruct (run_app_stop is_space (w :: ws) ((y :: b) ++ post)) as [H3 H4];
      [done | |].
    { intros c r' [= <- _]. by apply alpha_not_space. }
    destruct (run_app_stop is_alpha (y :: b) post) as [H5 _]; [done..|].
    unfold group_from. by rewrite H1, H2, H3, H4, H5.
Qed.

Lemma group_at_pair g a ws b :
  g = a ++ ws ++ b → a ≠ [] → b ≠ [] →
  Forall (fun c => is_alpha c = true) a →
  Forall (fun c => is_space c = true) ws →
  Forall (fun c => is_alpha c = true) b →
  ∃ x ws1 y tl, g = x :: ws1 ++ y :: tl ∧ is_alpha x = true ∧
    Forall (fun c => is_space c = true) ws1 ∧ is_alpha y = true.
Proof.
  intros -> Hna Hnb Ha Hws Hb.
  destruct a as [|x a]; [done|]. destruct b as [|y b]; [done|].
  apply Forall_cons in Ha as [Hx Ha]. apply Forall_cons in Hb as [Hy Hb].
  destruct a as [|x' a].
  - exists x, ws, y, b. by split_and!.
  - apply Forall_cons in Ha as [Hx' _].
    exists x, [], x', (a ++ ws ++ y :: b). by split_and!.
Qed.

Lemma group_at_unique s g g' : group_at s g → group_at s g' → g = g'.
Proof.
  intros (pre & a & ws & b & post & Hs & Hg & Hna & Hnb & Ha & Hws & Hb
            & Hpost & Hnone & Hleft)
         (pre' & a' & ws' & b' & post' & Hs' & Hg' & Hna' & Hnb' & Ha' & Hws' & Hb'
            & Hpost' & Hnone' & Hleft').
  destruct (group_at_pair g a ws b) as (x & w1 & y & tl & Hg1 & Hx & Hw1 & Hy);
    [done..|].
  destruct (group_at_pair g' a' ws' b') as (x' & w1' & y' & tl' & Hg1' & Hx' & Hw1' & Hy');
    [done..|].
  assert (List.length pre' ≤ List.length pre)%nat as Hle1.
  { apply (Hleft' pre x w1 y (tl ++ post)); [|done..].
    rewrite Hs, Hg1. simpl. by rewrite <-!(assoc_L (++)). }
  assert (List.length pre ≤ List.length pre')%nat as Hle2.
  { apply (Hleft pre' x' w1' y' (tl' ++ post')); [|done..].
    rewrite Hs', Hg1'. simpl. by rewrite <-!(assoc_L (++)). }
  assert (pre = pre' ∧ g ++ post = g' ++ post') as [_ Heq].
  { apply app_inj_1; [lia | congruence]. }
  transitivity (group_from (g ++ post)).
  { rewrite Hg. symmetry. by apply group_from_eq. }
  rewrite Heq, Hg'. by apply group_from_eq.
Qed.

Lemma search_group_at s g : Re.search regex_group s = Some g ↔ group_at s g.
Proof.
  assert (Hsound : ∀ g0, Re.search regex_group s = Some g0 → group_at s g0).
  { intros g0 Hs.
    apply search_first in Hs as (pre & rest & -> & Hm & Hleft).
    apply match_here_regex_group in Hm
      as (a & ws & b & post & Hg & -> & Hna & Hnb & Ha & Hws & Hb & Hpost & Hnone).
    exists pre, a, ws, b, post. split_and!; [done..|].
    intros pre1 x ws1 y post1 Heq Hx Hws1 Hy.
    apply (Hleft pre1 (x :: ws1 ++ [y]) post1).
    - rewrite Heq. simpl. by rewrite <-(assoc_L (++)).
    - apply matches_regex_group. exists [x], ws1, [y].
      split_and!; [done..| by repeat constructor | done | by repeat constructor]. }
  split; [apply Hsound|].
  intros Hg. pose proof Hg as Hg0.
  destruct Hg0 as (pre & a & ws & b & post & Hs & Hgeq & Hna & Hnb & Ha & Hws & Hb & _).
  destruct (ReFacts.search_complete regex_group pre g post) as [g0 Hg0].
  { apply matches_regex_group. by exists a, ws, b. }
  rewrite <-Hs in Hg0. rewrite Hg0. f_equal.
  eapply group_at_unique; [by apply Hsound | done].
Qed.

(** C8, as the script has it. The group of a label is a run of letters,
    then whitespace or none, then a run of letters: "Pos Ctrl" gives
    "Pos Ctrl". It is missing exactly when the label has no two letters that
    touch or that only whitespace separates; a label made of one letter has
    no group. The group is the one at the leftmost place that has one, with
    the runs taken whole: it starts at the first letter that has a letter
    after it, at once or after whitespace only, takes that letter's whole run
    of letters and, when whitespace and a letter come next, that whitespace
    and the whole next run of letters; so "UT 1 sample" gives "UT" and
    "x ab cd" gives "x ab". No other part of the label answers this
    description. *)
Theorem label_group_extraction :
  str_extract regex_group "Pos Ctrl" = Some "Pos Ctrl"
  ∧ (∀ label g,
       str_extract regex_group label = Some g →
       ∃ pre a ws b post,
         label = pre +:+ g +:+ post ∧ g = a +:+ ws +:+ b ∧
         a ≠ "" ∧ b ≠ "" ∧
         all_chars is_alpha a ∧ all_chars is_space ws ∧ all_chars is_alpha b)
  ∧ (∀ label,
       str_extract regex_group label = None ↔
       ¬ ∃ pre x ws y post,
           label = pre +:+ String x ws +:+ String y post ∧
           is_alpha x = true ∧ all_chars is_space ws ∧ is_alpha y = true)
  ∧ (∀ c, str_extract regex_group (String c "") = None)
  ∧ str_extract regex_group "UT 1 sample" = Some "UT"
  ∧ str_extract regex_group "x ab cd" = Some "x ab"
  ∧ (∀ label g,
       str_extract regex_group label = Some g ↔
       group_at (chars label) (chars g))
  ∧ (∀ label g g',
       group_at (chars label) (chars g) →
       group_at (chars label) (chars g') → g = g').
Proof.
  split_and!; [done | | | | done | done | |].
  - intros label g H. unfold str_extract in H.
    apply fmap_Some in H as (m & Hs & ->).
    apply ReFacts.search_sound in Hs as [Hm (pre & post & Hl)].
    apply matches_regex_group in Hm as (a & ws & b & -> & Hna & Hnb & Ha & Hws & Hb).
    exists (string_of_list_ascii pre), (string_of_list_ascii a),
      (string_of_list_ascii ws), (string_of_list_ascii b),
      (string_of_list_ascii post).
    unfold all_chars. rewrite !list_ascii_of_string_of_list_ascii.
    split_and!; [by apply chars_split3 | by rewrite !of_chars_app
                | by destruct a | by destruct b | done..].
  - intros label. rewrite str_extract_None. split.
    + intros Hnone (pre & x & ws & y & post & -> & Hx & Hws & Hy).
      destruct (ReFacts.search_complete regex_group (chars pre)
                  ([x] ++ chars ws ++ [y]) (chars post)) as [m Hm].
      { apply matches_regex_group. exists [x], (chars ws), [y].
        split_and!; [done..| by repeat constructor | done
                    | by repeat constructor]. }
      rewrite !chars_app in Hnone. simpl in Hnone, Hm.
      rewrite <-!(assoc_L (++)) in Hm. simpl in Hm. congruence.
    + intros Hno. destruct (Re.search regex_group (chars label)) as [m|] eqn:Hs; [|done].
      exfalso. apply Hno.
      apply ReFacts.search_sound in Hs as [Hm (pre & post & Hl)].
      apply matches_regex_group in Hm as (a & ws & b & -> & Hna & Hnb & Ha & Hws & Hb).
      destruct (exists_last Hna) as (a' & x & ->).
      destruct b as [|y b']; [done|].
      apply Forall_app in Ha as [_ Hx]. apply Forall_cons in Hx as [Hx _].
      apply Forall_cons in Hb as [Hy _].
      exists (string_of_list_ascii (pre ++ a')), x, (string_of_list_ascii ws),
        y, (string_of_list_ascii (b' ++ post)).
      split_and!; [|done| |done].
      * apply chars_inj. rewrite !chars_app. simpl.
        rewrite !list_ascii_of_string_of_list_ascii, Hl.
        by rewrite <-!(assoc_L (++)).
      * unfold all_chars. by rewrite list_ascii_of_string_of_list_ascii.
  - intros c. unfold str_extract, regex_group. simpl.
    by destruct (is_alpha c), (is_space c).
  - intros label g. rewrite <-search_group_at. unfold str_extract. split.
    + intros H. apply fmap_Some in H as (m & Hs & ->).
      by rewrite list_ascii_of_string_of_list_ascii.
    + intros ->. simpl. by rewrite string_of_list_ascii_of_string.
  - intros label g g' Hg Hg'. apply chars_inj. by eapply group_at_unique.
Qed.

Lemma label_group_extraction_witness :
  (∃ pre a ws b post,
     "86 Neg  Ctrl." = pre +:+ "Neg  Ctrl" +:+ post ∧
     "Neg  Ctrl" = a +:+ ws +:+ b ∧ a ≠ "" ∧ b ≠ "" ∧
     all_chars is_alpha a ∧ all_chars is_space ws ∧ all_chars is_alpha b)
  ∧ group_at (chars "UT 1 sample") (chars "UT").
Proof.
  split.
  - apply (proj1 (proj2 label_group_extraction) "86 Neg  Ctrl." "Neg  Ctrl").
    reflexivity.
  - apply (proj1 (proj2 (proj2 (proj2 (proj2 (proj2
             (proj2 label_group_extraction)))))) "UT 1 sample" "UT").
    reflexivity.
Defined.

(** C8, against its wording: the label "A" holds a letter, and yet has no
    group. *)
Lemma label_group_single_letter :
  str_extract regex_group "A" = None ∧ ¬ no_chars is_alpha "A".
Proof.
  split; [done|]. intros H. by inversion H.
Qed.

(** ** Highlighting *)

Section HighlightFacts.

Variable re_search : string → string → bool.

Lemma highlight_loop_first text pre k c post :
  no_match re_search text pre → re_search k text = true →
  highlight_loop re_search text (pre ++ (k, c) :: post) = color_lst_of c.
Proof.
  intros Hpre Hk. induction Hpre as [|[k' c'] pre Hk' _ IH]; simpl in *.
  - by rewrite Hk.
  - by rewrite Hk'.
Qed.

Lemma highlight_loop_no_match text color_map :
  no_match re_search text color_map →
  highlight_loop re_search text color_map = [].
Proof.
  induction 1 as [|[k c] rest Hk _ IH]; simpl in *; [done|]. by rewrite Hk.
Qed.

Lemma highlight_cells_first val pre k c post :
  no_match re_search (str val) pre → re_search k (str val) = true →
  highlight_cells re_search val (pre ++ (k, c) :: post)
  = the_color_of (color_lst_of c).
Proof.
  intros Hpre Hk. unfold highlight_cells. by rewrite highlight_loop_first.
Qed.

End HighlightFacts.

(** C5, as the script has it. The patterns are tried in the order of the
    dict and the first one that matches the text of the cell gives the style,
    whatever follows it in the dict. The match minds the letter case: with
    the rules "ctrl" in yellow and then "pos" in red text, "Pos Ctrl" matches
    neither and has no style, and "pos ctrl" matches both and gets the yellow
    background of the first only. *)
Theorem first_matching_rule_wins :
  (∀ re_search val pre k c post,
     no_match re_search (str val) pre →
     re_search k (str val) = true →
     highlight_cells re_search val (pre ++ (k, c) :: post)
     = the_color_of (color_lst_of c)
     ∧ highlight_cells re_search val (pre ++ (k, c) :: post)
       = highlight_cells re_search val (pre ++ [(k, c)]))
  ∧ build_color_map ["ctrl;yellow;"; "pos;;red"] []
    = Ok [rule "ctrl" "yellow" ""; rule "pos" "" "red"]
  ∧ highlight_cells re_search_literal (Some "Pos Ctrl")
      [rule "ctrl" "yellow" ""; rule "pos" "" "red"] = None
  ∧ highlight_cells re_search_literal (Some "pos ctrl")
      [rule "ctrl" "yellow" ""; rule "pos" "" "red"]
    = Some "background-color:yellow"
  ∧ highlight_cells re_search_literal (Some "pos ctrl")
      [rule "pos" "" "red"; rule "ctrl" "yellow" ""]
    = Some "color:red".
Proof.
  split_and!; [|done..].
  intros re_search val pre k c post Hpre Hk.
  by rewrite !highlight_cells_first.
Qed.

Lemma first_matching_rule_wins_witness :
  highlight_cells re_search_literal (Some "Neg Ctrl")
    ([rule "Pos" "" "red"] ++ rule "Ctrl" "yellow" "" :: [rule "Neg" "" "blue"])
  = Some "background-color:yellow".
Proof.
  destruct (proj1 first_matching_rule_wins re_search_literal (Some "Neg Ctrl")
              [rule "Pos" "" "red"] "Ctrl"
              {| background_color := "yellow"; text_color := "" |}
              [rule "Neg" "" "blue"]) as [H _].
  - by repeat constructor.
  - reflexivity.
  - exact H.
Defined.

(** C5, against its example: for the rules "ctrl" in yellow, then "pos" in
    red text, the cell "Pos Ctrl" does not get the yellow background; it gets
    no style. *)
Lemma pos_ctrl_is_not_highlighted :
  highlight_cells re_search_literal (Some "Pos Ctrl")
    [rule "ctrl" "yellow" ""; rule "pos" "" "red"] = None
  ∧ highlight_cells re_search_literal (Some "Pos Ctrl")
      [rule "ctrl" "yellow" ""; rule "pos" "" "red"]
    ≠ Some "background-color:yellow".
Proof. by split. Qed.

(** C9, as the script has it. The style is missing when no pattern matches
    the text of the cell, and when the first pattern that matches has two
    empty colors. The text of a missing cell is "nan" and that of a blank cell
    is empty; they are matched like any other text. *)
Theorem missing_style :
  (∀ re_search val color_map,
     no_match re_search (str val) color_map →
     highlight_cells re_search val color_map = None)
  ∧ (∀ re_search val pre k c post,
       no_match re_search (str val) pre →
       re_search k (str val) = true →
       background_color c = "" → text_color c = "" →
       highlight_cells re_search val (pre ++ (k, c) :: post) = None)
  ∧ (∀ re_search color_map,
       highlight_cells re_search None color_map
       = highlight_cells re_search (Some "nan") color_map)
  ∧ highlight_cells re_search_literal None [rule "an" "grey" ""]
    = Some "background-color:grey".
Proof.
  split_and!; [| |done..].
  - intros re_search val color_map H. unfold highlight_cells.
    by rewrite highlight_loop_no_match.
  - intros re_search val pre k c post Hpre Hk Hb Ht.
    rewrite highlight_cells_first by done.
    unfold color_lst_of. by rewrite Hb, Ht.
Qed.

Lemma missing_style_witness :
  highlight_cells re_search_literal (Some "UT100")
    [rule "Ctrl" "yellow" ""; rule "Pos" "" "red"] = None
  ∧ highlight_cells re_search_literal (Some "Pos Ctrl")
      ([rule "Neg" "blue" ""] ++ rule "Ctrl" "" "" :: [rule "Pos" "" "red"])
    = None.
Proof.
  split.
  - apply (proj1 missing_style). by repeat constructor.
  - apply (proj1 (proj2 missing_style)); [by repeat constructor | reflexivity..].
Defined.

(** C9, against its wording: a missing cell and a blank cell get a style from
    a pattern that matches the text "nan" or the empty text. *)
Lemma missing_cell_is_highlighted :
  highlight_cells re_search_literal None [rule "nan" "grey" "white"]
  = Some "background-color:grey;color:white"
  ∧ highlight_cells re_search_literal (Some "") [rule "" "grey" ""]
    = Some "background-color:grey".
Proof. by split. Qed.

(** C10. When the first pattern that matches has a background color, a text
    color, or both, the style is "background-color:" with the former,
    "color:" with the latter, or the two joined by a semicolon with the
    background first. *)
Theorem style_of_first_match (re_search : string → string → bool)
    (val : option string) (pre : dict colors) (k : string) (c : colors)
    (post : dict colors) :
  no_match re_search (str val) pre →
  re_search k (str val) = true →
  (background_color c ≠ "" → text_color c ≠ "" →
   highlight_cells re_search val (pre ++ (k, c) :: post)
   = Some ("background-color:" +:+ background_color c +:+ ";"
           +:+ "color:" +:+ text_color c))
  ∧ (background_color c ≠ "" → text_color c = "" →
     highlight_cells re_search val (pre ++ (k, c) :: post)
     = Some ("background-color:" +:+ background_color c))
  ∧ (background_color c = "" → text_color c ≠ "" →
     highlight_cells re_search val (pre ++ (k, c) :: post)
     = Some ("color:" +:+ text_color c)).
Proof.
  intros Hpre Hk. rewrite highlight_cells_first by done.
  unfold color_lst_of.
  destruct c as [[|b bs] [|t ts]]; simpl; split_and!; intros; try done.
Qed.

Lemma style_of_first_match_witness :
  highlight_cells re_search_literal (Some "Pos Ctrl")
    ([rule "Neg" "blue" ""] ++ rule "Ctrl" "yellow" "red" :: [rule "Pos" "" "red"])
  = Some "background-color:yellow;color:red".
Proof.
  apply (style_of_first_match re_search_literal (Some "Pos Ctrl")
           [rule "Neg" "blue" ""] "Ctrl"
           {| background_color := "yellow"; text_color := "red" |}
           [rule "Pos" "" "red"]).
  - by repeat constructor.
  - reflexivity.
  - discriminate.
  - discriminate.
Defined.

(** ** The dict of the colors *)

Lemma dict_set_keys {V} (d : dict V) k v k' :
  k' ∈ (dict_set d k v).*1 ↔ k' = k ∨ k' ∈ d.*1.
Proof.
  induction d as [|[k0 v0] d IH]; simpl.
  - rewrite list_elem_of_singleton, elem_of_nil. tauto.
  - case_bool_decide; simpl; rewrite !elem_of_cons, ?IH; subst; tauto.
Qed.

Lemma dict_set_NoDup {V} (d : dict V) k v :
  NoDup d.*1 → NoDup (dict_set d k v).*1.
Proof.
  induction d as [|[k0 v0] d IH]; simpl; intros Hnd.
  - apply NoDup_singleton.
  - apply NoDup_cons in Hnd as [Hk0 Hnd].
    case_bool_decide; simpl; apply NoDup_cons; [done|].
    split; [|by apply IH].
    rewrite dict_set_keys. intros [->|?]; done.
Qed.

(** The keys of [color_map] are distinct, so that each pattern met in the
    loop has one value in the dict. *)
Lemma build_color_map_NoDup highlight d d' :
  NoDup d.*1 → build_color_map highlight d = Ok d' → NoDup d'.*1.
Proof.
  revert d. induction highlight as [|h rest IH]; intros d Hnd; simpl.
  - by intros [= <-].
  - destruct (split_semicolon h) as [|k [|b [|t [|??]]]]; try done.
    apply IH. by apply dict_set_NoDup.
Qed.

(** Two entries with the same pattern make one key: it keeps the place of
    the first entry and takes the colors of the second. *)
Example build_color_map_same_pattern :
  build_color_map ["a;red;"; "b;;green"; "a;blue;"] []
  = Ok [rule "a" "blue" ""; rule "b" "" "green"].
Proof. reflexivity. Qed.

(** An entry without exactly two semicolons cannot be unpacked. *)
Example build_color_map_unpack :
  build_color_map ["ctrl;yellow"] [] = Raise ValueError_unpack.
Proof. reflexivity. Qed.

(** ** Tables *)

Lemma mapM_Ok {A B} (f : A → result B) l k :
  mapM f l = Ok k ↔ Forall2 (fun x y => f x = Ok y) l k.
Proof.
  split.
  - revert k. induction l as [|x l IH]; intros k; simpl.
    + intros [= <-]. constructor.
    + destruct (f x) as [y|e] eqn:Hx; [|done]. simpl.
      destruct (mapM f l) as [k'|e]; [|done]. simpl.
      intros [= <-]. constructor; [done | by apply IH].
  - induction 1 as [|x y l k Hx _ IH]; simpl; [done|].
    by rewrite Hx, IH.
Qed.

Lemma mapM_Raise {A B} (f : A → result B) l :
  (∃ e, mapM f l = Raise e) ↔ Exists (fun x => ∃ e, f x = Raise e) l.
Proof.
  induction l as [|x l IH]; simpl.
  - rewrite Exists_nil. split; [by intros [? ?] | done].
  - rewrite Exists_cons, <-IH.
    destruct (f x) as [y|e] eqn:Hx; simpl.
    + destruct (mapM f l) as [k|e]; simpl.
      * split; [by intros [? ?] | by intros [[? ?]|[? ?]]].
      * split; [eauto | eauto].
    + split; eauto.
Qed.

Lemma Forall2_exists_r {A B} (P : A → B → Prop) l k y :
  Forall2 P l k → y ∈ k → ∃ x, x ∈ l ∧ P x y.
Proof.
  induction 1 as [|x0 y0 l k H0 _ IH]; intros Hy.
  - by apply elem_of_nil in Hy.
  - apply elem_of_cons in Hy as [->|Hy].
    + exists x0. split; [apply list_elem_of_here | done].
    + destruct (IH Hy) as (x & Hx & HP).
      exists x. split; [by apply list_elem_of_further | done].
Qed.

Lemma Forall2_exists_l {A B} (P : A → B → Prop) l k x :
  Forall2 P l k → x ∈ l → ∃ y, y ∈ k ∧ P x y.
Proof.
  induction 1 as [|x0 y0 l k H0 _ IH]; intros Hx.
  - by apply elem_of_nil in Hx.
  - apply elem_of_cons in Hx as [->|Hx].
    + exists y0. split; [apply list_elem_of_here | done].
    + destruct (IH Hx) as (y & Hy & HP).
      exists y. split; [by apply list_elem_of_further | done].
Qed.

Lemma new_columns_Ok rec r :
  new_columns rec = Ok r ↔
  parse_well (Well rec) = Ok (pivot_key r) ∧ Label r = Label_of rec ∧
  r_Well r = Well rec ∧
  Label_group r = str_extract regex_group (Label_of rec) ∧
  Label_examinee r = str_extract regex_examinee (Label_of rec).
Proof.
  unfold new_columns, parse_well, pivot_key.
  destruct (Well_col_of (Well rec)) as [c|e]; simpl;
    [|split; [done | by intros [[=] _]]].
  split.
  - by intros [= <-].
  - destruct r; simpl. by intros ([= -> ->] & -> & -> & -> & ->).
Qed.

Lemma new_columns_Raise rec e :
  new_columns rec = Raise e ↔ parse_well (Well rec) = Raise e.
Proof.
  unfold new_columns, parse_well.
  destruct (Well_col_of (Well rec)); simpl.
  - unfold mret, result_ret. by split.
  - split; by intros [= ->].
Qed.

Lemma add_columns_keys records tbl :
  add_columns records = Ok tbl →
  well_keys records = Ok <$> (pivot_key <$> tbl).
Proof.
  unfold add_columns. rewrite mapM_Ok.
  induction 1 as [|rec r records tbl Hr _ IH]; simpl; [done|].
  apply new_columns_Ok in Hr as [-> _]. by f_equal.
Qed.

Lemma add_columns_is_Ok records :
  all_parsed records → ∃ tbl, add_columns records = Ok tbl.
Proof.
  intros Hall. destruct (add_columns records) as [tbl|e] eqn:Hadd; [by eexists|].
  exfalso. assert (∃ e, add_columns records = Raise e) as Hex by eauto.
  apply mapM_Raise, Exists_exists in Hex as (rec & Hin & e' & He').
  apply new_columns_Raise in He'.
  eapply Forall_forall in Hall as [key Hkey]; [|done]. congruence.
Qed.

Global Instance Ok_inj {A} : Inj (=) (=) (@Ok A).
Proof. by intros x y [= ->]. Qed.

Lemma add_columns_NoDup records tbl :
  add_columns records = Ok tbl →
  NoDup (pivot_key <$> tbl) ↔ NoDup (well_keys records).
Proof.
  intros H. rewrite (add_columns_keys _ _ H).
  symmetry. apply (NoDup_fmap _).
Qed.

(** ** The map of one table *)

Lemma cells_df_tpl : cells df_tpl = ∅.
Proof. reflexivity. Qed.

Lemma well_rows_eq : well_rows = ["A"; "B"; "C"; "D"; "E"; "F"; "G"; "H"].
Proof. reflexivity. Qed.

Lemma well_cols_eq : well_cols = [1; 2; 3; 4; 5; 6; 7; 8; 9; 10; 11; 12].
Proof. reflexivity. Qed.

Lemma index_df_tpl r :
  r ∈ index df_tpl ↔ ∃ x, r = Some x ∧ x ∈ well_rows.
Proof.
  change (index df_tpl) with (list_to_set (C:=gset _) (Some <$> well_rows)).
  by rewrite elem_of_list_to_set, list_elem_of_fmap.
Qed.

Lemma columns_df_tpl c : c ∈ columns df_tpl ↔ 1 ≤ c ≤ 12.
Proof.
  change (columns df_tpl) with
    (list_to_set (C:=gset Z)
       ((fun col => (col, replicate (List.length well_rows) (@None string)))
          <$> well_cols).*1).
  rewrite elem_of_list_to_set, <-list_fmap_compose.
  rewrite list_elem_of_fmap. unfold well_cols. split.
  - intros (x & -> & Hx). simpl. apply elem_of_seqZ in Hx. lia.
  - intros Hc. exists c. split; [done|]. apply elem_of_seqZ. lia.
Qed.

Lemma df_size_df_tpl : df_size df_tpl = 96%nat.
Proof. by vm_compute. Qed.

Lemma convert_Ok records g :
  convert_table_to_map records = Ok g ↔
  ∃ tbl, add_columns records = Ok tbl ∧ NoDup (pivot_key <$> tbl) ∧
    g = combine_first (pivoted tbl) df_tpl.
Proof.
  unfold convert_table_to_map, pivot.
  destruct (add_columns records) as [tbl|e]; simpl.
  - case_bool_decide as Hnd; simpl.
    + split; [intros [= <-]; by exists tbl | by intros (? & [= <-] & _ & ->)].
    + split; [done | intros (? & [= <-] & ? & _); done].
  - split; [done | by intros (? & ? & _)].
Qed.

Lemma convert_is_Ok records :
  all_parsed records → NoDup (well_keys records) →
  ∃ g, convert_table_to_map records = Ok g.
Proof.
  intros Hall Hnd. destruct (add_columns_is_Ok _ Hall) as [tbl Htbl].
  exists (combine_first (pivoted tbl) df_tpl). apply convert_Ok.
  exists tbl. split_and!; [done| |done]. by apply (add_columns_NoDup records).
Qed.

Lemma convert_duplicates records :
  all_parsed records → ¬ NoDup (well_keys records) →
  convert_table_to_map records = Raise ValueError_duplicate_entries.
Proof.
  intros Hall Hnd. destruct (add_columns_is_Ok _ Hall) as [tbl Htbl].
  unfold convert_table_to_map, pivot. rewrite Htbl. simpl.
  rewrite bool_decide_eq_false_2; [done|].
  by rewrite (add_columns_NoDup records).
Qed.

Lemma convert_unparsed records rec e :
  rec ∈ records → parse_well (Well rec) = Raise e →
  ∃ e', convert_table_to_map records = Raise e'.
Proof.
  intros Hin He.
  assert (∃ e', add_columns records = Raise e') as [e' He'].
  { apply mapM_Raise, Exists_exists. exists rec. split; [done|].
    exists e. by apply new_columns_Raise. }
  exists e'. unfold convert_table_to_map. by rewrite He'.
Qed.

Lemma convert_cells records g :
  convert_table_to_map records = Ok g →
  (∀ r, r ∈ index g ↔
     r ∈ index df_tpl ∨
     ∃ rec c, rec ∈ records ∧ parse_well (Well rec) = Ok (r, c))
  ∧ (∀ c, c ∈ columns g ↔
       c ∈ columns df_tpl ∨
       ∃ rec r, rec ∈ records ∧ parse_well (Well rec) = Ok (r, c))
  ∧ (∀ r c l, at_ g r c = Some l ↔
       ∃ rec, rec ∈ records ∧ parse_well (Well rec) = Ok (r, c) ∧
         Label_of rec = l).
Proof.
  intros Hg. apply convert_Ok in Hg as (tbl & Htbl & Hnd & ->).
  unfold add_columns in Htbl. rewrite mapM_Ok in Htbl.
  assert (Hl : ∀ y, y ∈ tbl → ∃ rec, rec ∈ records ∧
            parse_well (Well rec) = Ok (pivot_key y) ∧ Label y = Label_of rec).
  { intros y Hy. destruct (Forall2_exists_r _ _ _ _ Htbl Hy) as (rec & Hin & Hrec).
    apply new_columns_Ok in Hrec as (? & ? & _). eauto. }
  assert (Hr : ∀ rec, rec ∈ records → ∃ y, y ∈ tbl ∧
            parse_well (Well rec) = Ok (pivot_key y) ∧ Label y = Label_of rec).
  { intros rec Hin. destruct (Forall2_exists_l _ _ _ _ Htbl Hin) as (y & Hy & Hrec).
    apply new_columns_Ok in Hrec as (? & ? & _). eauto. }
  split_and!.
  - intros r. unfold combine_first, pivoted. simpl.
    rewrite elem_of_union, elem_of_list_to_set, list_elem_of_fmap. split.
    + intros [(y & -> & Hy)|?]; [right|by left].
      destruct (Hl y Hy) as (rec & Hin & Hkey & _).
      by exists rec, (Well_col y).
    + intros [?|(rec & c & Hin & Hkey)]; [by right|left].
      destruct (Hr rec Hin) as (y & Hy & Hkey' & _).
      exists y. split; [|done]. unfold pivot_key in Hkey'. congruence.
  - intros c. unfold combine_first, pivoted. simpl.
    rewrite elem_of_union, elem_of_list_to_set, list_elem_of_fmap. split.
    + intros [(y & -> & Hy)|?]; [right|by left].
      destruct (Hl y Hy) as (rec & Hin & Hkey & _).
      by exists rec, (Well_row y).
    + intros [?|(rec & r & Hin & Hkey)]; [by right|left].
      destruct (Hr rec Hin) as (y & Hy & Hkey' & _).
      exists y. split; [|done]. unfold pivot_key in Hkey'. congruence.
  - intros r c l. unfold at_.
    change (cells (combine_first (pivoted tbl) df_tpl))
      with (cells (pivoted tbl) ∪ cells df_tpl).
    rewrite cells_df_tpl, (right_id_L ∅ (∪)). unfold pivoted. cbn [cells].
    rewrite <-elem_of_list_to_map by (by rewrite <-list_fmap_compose).
    rewrite list_elem_of_fmap. split.
    + intros (y & Heq & Hy). injection Heq as -> -> ->.
      destruct (Hl y Hy) as (rec & Hin & Hkey' & Hlab).
      exists rec. by split_and!.
    + intros (rec & Hin & Hkey & <-).
      destruct (Hr rec Hin) as (y & Hy & Hkey' & Hlab).
      exists y. split; [|done]. f_equal; congruence.
Qed.

Lemma df_wf_convert records g :
  convert_table_to_map records = Ok g → df_wf g.
Proof.
  intros Hg. destruct (convert_cells _ _ Hg) as (Hi & Hc & Hat).
  intros r c v Hv. apply Hat in Hv as (rec & Hin & Hkey & _).
  split; [apply Hi | apply Hc]; right; eauto.
Qed.

Lemma convert_all_parsed records g :
  convert_table_to_map records = Ok g → all_parsed records.
Proof.
  intros Hg. apply convert_Ok in Hg as (tbl & Htbl & _).
  unfold add_columns in Htbl. rewrite mapM_Ok in Htbl.
  apply Forall_forall. intros rec Hin.
  destruct (Forall2_exists_l _ _ _ _ Htbl Hin) as (y & _ & Hrec).
  apply new_columns_Ok in Hrec as (? & _). eauto.
Qed.

Lemma convert_NoDup records g :
  convert_table_to_map records = Ok g → NoDup (well_keys records).
Proof.
  intros Hg. apply convert_Ok in Hg as (tbl & Htbl & Hnd & _).
  by apply (add_columns_NoDup records tbl).
Qed.

Lemma convert_at records g rec r c :
  convert_table_to_map records = Ok g → rec ∈ records →
  parse_well (Well rec) = Ok (r, c) →
  r ∈ index g ∧ c ∈ columns g ∧ at_ g r c = Some (Label_of rec).
Proof.
  intros Hg Hin Hkey. destruct (convert_cells _ _ Hg) as (Hi & Hc & Hat).
  split_and!; [apply Hi | apply Hc | apply Hat]; eauto.
Qed.

Lemma on_plate_all_parsed records : on_plate records → all_parsed records.
Proof.
  intros H. eapply Forall_impl; [exact H|].
  intros rec (r & c & Hkey & _). eauto.
Qed.

(** C1, as the script has it. Two lines of the table at the same row and
    column make the conversion fail: the pivot raises ValueError and there
    is no map, so that neither label wins. A map that is returned comes from
    lines at distinct positions, and holds the label of each line at the
    position of the line. *)
Theorem duplicate_wells_are_refused :
  (∀ records i j reci recj key,
     i ≠ j → records !! i = Some reci → records !! j = Some recj →
     parse_well (Well reci) = Ok key → parse_well (Well recj) = Ok key →
     (∃ e, convert_table_to_map records = Raise e)
     ∧ (all_parsed records →
        convert_table_to_map records = Raise ValueError_duplicate_entries))
  ∧ (∀ records g,
       convert_table_to_map records = Ok g →
       NoDup (well_keys records)
       ∧ ∀ rec, rec ∈ records →
           ∃ r c, parse_well (Well rec) = Ok (r, c) ∧
             at_ g r c = Some (Label_of rec))
  ∧ (∀ c1 s1 c2 s2,
       convert_table_to_map
         [well_record "A01" c1 s1; well_record "A01" c2 s2]
       = Raise ValueError_duplicate_entries).
Proof.
  assert (Hdup : ∀ records i j reci recj key,
    i ≠ j → records !! i = Some reci → records !! j = Some recj →
    parse_well (Well reci) = Ok key → parse_well (Well recj) = Ok key →
    ¬ NoDup (well_keys records)).
  { intros records i j reci recj key Hij Hi Hj Hki Hkj Hnd.
    apply Hij. eapply NoDup_alt; [exact Hnd| |]; unfold well_keys;
      rewrite list_lookup_fmap.
    - rewrite Hi. simpl. by rewrite Hki.
    - rewrite Hj. simpl. by rewrite Hkj. }
  split_and!.
  - intros records i j reci recj key Hij Hi Hj Hki Hkj.
    pose proof (Hdup _ _ _ _ _ _ Hij Hi Hj Hki Hkj) as Hnd.
    split; [|intros Hall; by apply convert_duplicates].
    destruct (convert_table_to_map records) as [g|e] eqn:Hg; [|by eexists].
    by apply convert_NoDup in Hg.
  - intros records g Hg. split; [by eapply convert_NoDup|].
    intros rec Hin.
    pose proof (convert_all_parsed _ _ Hg) as Hall.
    eapply Forall_forall in Hall as [[r c] Hkey]; [|done].
    exists r, c. split; [done|]. by eapply convert_at.
  - intros c1 s1 c2 s2. apply convert_duplicates.
    + repeat constructor; by eexists.
    + apply (Hdup _ 0%nat 1%nat (well_record "A01" c1 s1)
               (well_record "A01" c2 s2) (Some "A", 1)); done.
Qed.

Lemma duplicate_wells_are_refused_witness :
  convert_table_to_map
    [well_record "B03" "Unkn" "UT7"; well_record "C04" "Pos Ctrl" "x";
     well_record "B03" "Unkn" "UT8"]
  = Raise ValueError_duplicate_entries.
Proof.
  apply (proj1 duplicate_wells_are_refused _ 0%nat 2%nat
           (well_record "B03" "Unkn" "UT7") (well_record "B03" "Unkn" "UT8")
           (Some "B", 3)).
  - lia.
  - reflexivity.
  - reflexivity.
  - reflexivity.
  - reflexivity.
  - repeat constructor; eexists; reflexivity.
Defined.

(** C1, against its wording: two lines for the well A01 give no map, and so
    no map that holds the label of the second line at (A, 1). *)
Lemma last_write_does_not_win :
  convert_table_to_map
    [well_record "A01" "Unkn" "L1"; well_record "A01" "Unkn" "L2"]
  = Raise ValueError_duplicate_entries
  ∧ ¬ ∃ g,
      convert_table_to_map
        [well_record "A01" "Unkn" "L1"; well_record "A01" "Unkn" "L2"] = Ok g
      ∧ at_ g (Some "A") 1 = Some "L2".
Proof.
  assert (H : convert_table_to_map
    [well_record "A01" "Unkn" "L1"; well_record "A01" "Unkn" "L2"]
    = Raise ValueError_duplicate_entries) by (by vm_compute).
  split; [done|]. intros (g & Hg & _). congruence.
Qed.

(** C2, as the script has it. A well without a digit makes the conversion
    fail, when its column is turned into an integer, and there is no map. A
    well with digits and without a letter is not refused: in a table whose
    columns are handed over as texts, where every well has a column number
    and no two lines stand at the same position, its line goes to a row whose
    label is missing, as for the well "7" next to the well "A01". *)
Theorem well_without_digits_aborts :
  (∀ records rec,
     rec ∈ records → str_extract regex_col (Well rec) = None →
     ∃ e, convert_table_to_map records = Raise e)
  ∧ (∀ records,
       text_table records = true →
       all_parsed records → NoDup (well_keys records) →
       ∃ g, convert_table_to_map records = Ok g
         ∧ ∀ rec, rec ∈ records →
             str_extract regex_row (Well rec) = None →
             None ∈ index g
             ∧ ∃ c, parse_well (Well rec) = Ok (None, c) ∧
                 at_ g None c = Some (Label_of rec))
  ∧ (text_table
       [well_record "A01" "Unkn" "UT1"; well_record "7" "Unkn" "UT2"] = true
     ∧ str_extract regex_row "7" = None
     ∧ ∃ g, convert_table_to_map
              [well_record "A01" "Unkn" "UT1"; well_record "7" "Unkn" "UT2"]
            = Ok g
         ∧ None ∈ index g ∧ at_ g None 7 = Some "UT2"
         ∧ at_ g (Some "A") 1 = Some "UT1").
Proof.
  split_and!.
  - intros records rec Hin Hnone.
    apply (convert_unparsed records rec ValueError_nan_to_integer Hin).
    unfold parse_well, Well_col_of. by rewrite Hnone.
  - intros records _ Hall Hnd.
    destruct (convert_is_Ok _ Hall Hnd) as [g Hg]. exists g. split; [done|].
    intros rec Hin Hrow.
    eapply Forall_forall in Hall as [[r c] Hkey]; [|done].
    assert (r = None) as ->.
    { unfold parse_well, Well_row_of in Hkey. rewrite Hrow in Hkey.
      destruct (Well_col_of (Well rec)); simpl in Hkey; [|done].
      by injection Hkey as <- _. }
    destruct (convert_at _ _ _ _ _ Hg Hin Hkey) as (? & _ & ?). eauto.
  - reflexivity.
  - reflexivity.
  - eexists. split; [by vm_compute|]. split_and!; by vm_compute.
Qed.

Lemma well_without_digits_aborts_witness :
  (∃ e, convert_table_to_map
          [well_record "A01" "Unkn" "UT1"; well_record "B" "Unkn" "UT2"]
        = Raise e)
  ∧ (∃ g, convert_table_to_map
            [well_record "C03" "Unkn" "UT1"; well_record "12" "Pos Ctrl" "x"]
          = Ok g ∧ at_ g None 12 = Some "Pos Ctrl").
Proof.
  split.
  - apply (proj1 well_without_digits_aborts _ (well_record "B" "Unkn" "UT2")).
    + apply list_elem_of_further, list_elem_of_here.
    + reflexivity.
  - destruct (proj1 (proj2 well_without_digits_aborts)
                [well_record "C03" "Unkn" "UT1"; well_record "12" "Pos Ctrl" "x"])
      as (g & Hg & Hrow).
    + reflexivity.
    + repeat constructor; eexists; reflexivity.
    + apply (bool_decide_unpack _). by vm_compute.
    + exists g. split; [exact Hg|].
      destruct (Hrow (well_record "12" "Pos Ctrl" "x")) as (_ & c & Hc & Hat).
      * apply list_elem_of_further, list_elem_of_here.
      * reflexivity.
      * injection Hc as <-. exact Hat.
Defined.

(** C2, against its wording: in the table of the wells "A01" and "7", whose
    columns are handed over as texts, the well "7" has no letter, and the
    conversion returns a map, with that line at column 7 of a row without
    label. *)
Lemma well_without_letter_is_mapped :
  text_table
    [well_record "A01" "Unkn" "UT1"; well_record "7" "Unkn" "UT2"] = true
  ∧ str_extract regex_row "7" = None
  ∧ (∃ g, convert_table_to_map
            [well_record "A01" "Unkn" "UT1"; well_record "7" "Unkn" "UT2"]
          = Ok g
       ∧ at_ g None 7 = Some "UT2")
  ∧ ¬ ∃ e, convert_table_to_map
             [well_record "A01" "Unkn" "UT1"; well_record "7" "Unkn" "UT2"]
           = Raise e.
Proof.
  split_and!; [reflexivity | reflexivity | |].
  - eexists. split; by vm_compute.
  - intros [e He]. by vm_compute in He.
Qed.

(** The table of the single well "99" is not one that is handed over as
    texts, its wells reading as numbers; nor is a table with an empty cell or
    with a cell that holds a mark of a missing value. *)
Lemma tables_not_handed_over_as_texts :
  text_table [well_record "99" "Unkn" "UT1"] = false
  ∧ text_table [well_record "A01" "Unkn" ""] = false
  ∧ text_table [well_record "A01" "NA" "UT1"] = false
  ∧ text_table [well_record "A01" "Unkn" "12"] = false
  ∧ text_table [well_record "A01" "Unkn" "UT1"; well_record "B02" "Unkn" "12"]
    = true.
Proof. by split_and!. Qed.

(** C3, as the script has it. When every well of the table is one of the
    plate and no two lines stand at the same position, the map has the rows A
    to H and the columns 1 to 12 of the template, 96 cells, whatever the
    number of lines, and each line labels its own cell. The empty table gives
    the template itself, whose 96 cells are all missing. *)
Theorem plate_table_fills_the_template :
  (∀ records,
     on_plate records → NoDup (well_keys records) →
     ∃ g, convert_table_to_map records = Ok g
       ∧ index g = index df_tpl ∧ columns g = columns df_tpl
       ∧ df_size g = 96%nat
       ∧ df_wf g
       ∧ (∀ r c, r ∈ index g ∧ c ∈ columns g ↔
            (∃ x, r = Some x ∧ x ∈ well_rows) ∧ 1 ≤ c ≤ 12)
       ∧ (∀ r c l, at_ g r c = Some l ↔
            ∃ rec, rec ∈ records ∧ parse_well (Well rec) = Ok (r, c) ∧
              Label_of rec = l))
  ∧ convert_table_to_map [] = Ok df_tpl
  ∧ well_rows = ["A"; "B"; "C"; "D"; "E"; "F"; "G"; "H"]
  ∧ df_size df_tpl = 96%nat
  ∧ cells df_tpl = ∅.
Proof.
  split_and!; [|done..].
  intros records Hplate Hnd.
  destruct (convert_is_Ok records (on_plate_all_parsed _ Hplate) Hnd) as [g Hg].
  destruct (convert_cells _ _ Hg) as (Hi & Hc & Hat).
  assert (Hindex : index g = index df_tpl).
  { apply set_eq. intros r. rewrite Hi. split; [|by left].
    intros [?|(rec & c & Hin & Hkey)]; [done|].
    eapply Forall_forall in Hplate as (r' & c' & Hkey' & Hr' & _); [|done].
    apply index_df_tpl. exists r'. split; [congruence | done]. }
  assert (Hcolumns : columns g = columns df_tpl).
  { apply set_eq. intros c. rewrite Hc. split; [|by left].
    intros [?|(rec & r & Hin & Hkey)]; [done|].
    eapply Forall_forall in Hplate as (r' & c' & Hkey' & _ & Hc'); [|done].
    apply columns_df_tpl. assert (c = c') as -> by congruence. done. }
  exists g. split_and!; [done..| | | |done].
  - unfold df_size. rewrite Hindex, Hcolumns. apply df_size_df_tpl.
  - by eapply df_wf_convert.
  - intros r c. by rewrite Hindex, Hcolumns, index_df_tpl, columns_df_tpl.
Qed.

Lemma plate_table_fills_the_template_witness :
  ∃ g, convert_table_to_map
         [well_record "A01" "Unkn" "UT100"; well_record "A02" "Pos Ctrl" "x"]
       = Ok g
    ∧ df_size g = 96%nat
    ∧ at_ g (Some "A") 1 = Some "UT100"
    ∧ at_ g (Some "A") 2 = Some "Pos Ctrl".
Proof.
  destruct (proj1 plate_table_fills_the_template
              [well_record "A01" "Unkn" "UT100";
               well_record "A02" "Pos Ctrl" "x"])
    as (g & Hg & _ & _ & Hsize & _ & _ & Hat).
  - repeat constructor.
    + exists "A", 1. split_and!; [reflexivity | | lia | lia].
      apply list_elem_of_here.
    + exists "A", 2. split_and!; [reflexivity | | lia | lia].
      apply list_elem_of_here.
  - apply (bool_decide_unpack _). by vm_compute.
  - exists g. split_and!; [exact Hg | exact Hsize | |].
    + apply Hat. exists (well_record "A01" "Unkn" "UT100").
      split_and!; [apply list_elem_of_here | reflexivity | reflexivity].
    + apply Hat. exists (well_record "A02" "Pos Ctrl" "x").
      split_and!; [apply list_elem_of_further, list_elem_of_here
                  | reflexivity | reflexivity].
Defined.

(** C3, against its wording: two lines for the well H12 are wells of the
    plate, and the conversion returns no map. *)
Lemma plate_table_with_duplicates :
  on_plate [well_record "H12" "Unkn" "UT1"; well_record "H12" "Unkn" "UT2"]
  ∧ convert_table_to_map
      [well_record "H12" "Unkn" "UT1"; well_record "H12" "Unkn" "UT2"]
    = Raise ValueError_duplicate_entries.
Proof.
  split; [|by vm_compute].
  repeat constructor; exists "H", 12;
    (split_and!; [reflexivity | | lia | lia]);
    rewrite well_rows_eq; do 7 apply list_elem_of_further;
    apply list_elem_of_here.
Qed.




(** * More properties *)

(** ** The conversion as a whole *)

Lemma search_Plus_None p s :
  Re.search [Re.Atom p Re.Plus] s = None ↔ Forall (fun c => p c = false) s.
Proof.
  split.
  - intros Hs. apply Forall_forall. intros x Hx.
    apply list_elem_of_split in Hx as (l1 & l2 & ->).
    eapply ReFacts.match_here_Plus_None.
    eapply ReFacts.search_None; [exact Hs | reflexivity].
  - intros Hall. destruct (Re.search [Re.Atom p Re.Plus] s) as [m|] eqn:Hs; [|done].
    apply ReFacts.search_Plus in Hs as (pre & post & -> & Hne & Hm & _).
    destruct m as [|c m]; [done|].
    apply Forall_app in Hall as [_ Hall]. apply Forall_app in Hall as [Hall _].
    apply Forall_cons in Hall as [Hc _]. apply Forall_cons in Hm as [Hc' _].
    congruence.
Qed.

Lemma str_extract_Plus_None p s :
  str_extract [Re.Atom p Re.Plus] s = None ↔ no_chars p s.
Proof. rewrite str_extract_None. apply search_Plus_None. Qed.

Lemma parse_well_is_Ok well :
  (∃ key, parse_well well = Ok key) ↔
  ∃ ds, str_extract regex_col well = Some ds ∧ int_of_digits ds ≤ int64_max.
Proof.
  unfold parse_well, Well_col_of, astype_int64.
  destruct (str_extract regex_col well) as [ds|]; simpl.
  - destruct (Z.leb_spec (int_of_digits ds) int64_max); simpl.
    + split; [intros _; by exists ds | intros _; by eexists].
    + split; [by intros [? ?] | intros (ds' & [= <-] & ?); lia].
  - split; [by intros [? ?] | by intros (? & ? & _)].
Qed.

(** X1. For a table whose columns are handed over as texts, the conversion
    returns a map exactly when every well holds a digit, the first run of
    digits of every well is a number that fits in an int64, and no two lines
    have the same row and column. *)
Theorem conversion_succeeds_iff (records : list WellRecord) :
  text_table records = true →
  ((∃ g, convert_table_to_map records = Ok g) ↔
   Forall (fun rec =>
             ¬ no_chars is_digit (Well rec) ∧
             ∀ ds, str_extract regex_col (Well rec) = Some ds →
                   int_of_digits ds ≤ int64_max) records
   ∧ NoDup (well_keys records)).
Proof.
  intros _.
  assert (Hall : all_parsed records ↔
    Forall (fun rec =>
              ¬ no_chars is_digit (Well rec) ∧
              ∀ ds, str_extract regex_col (Well rec) = Some ds →
                    int_of_digits ds ≤ int64_max) records).
  { unfold all_parsed. apply Forall_proper; [|done]. intros rec.
    rewrite parse_well_is_Ok, <-str_extract_Plus_None.
    fold regex_col. split.
    - intros (ds & Hds & Hle). split; [congruence|].
      intros ds' Hds'. congruence.
    - intros [Hsome Hle].
      destruct (str_extract regex_col (Well rec)) as [ds|]; [|done].
      exists ds. split; [done | by apply Hle]. }
  rewrite <-Hall. split.
  - intros [g Hg]. split; [by eapply convert_all_parsed | by eapply convert_NoDup].
  - intros [? ?]. by apply convert_is_Ok.
Qed.

Lemma mapM_first_Raise {A B} (f : A → result B) pre x post e :
  Forall (fun a => ∃ b, f a = Ok b) pre → f x = Raise e →
  mapM f (pre ++ x :: post) = Raise e.
Proof.
  intros Hpre Hx. induction Hpre as [|a pre [b Ha] _ IH]; simpl.
  - by rewrite Hx.
  - by rewrite Ha, IH.
Qed.

(** X2. When a well has no number for its column, the exception of the
    conversion is the one of the first such line: a missing value for a
    well without digit, an overflow for a number above the largest int64.
    Lines at the same position before it, and other wells without number
    after it, do not change the exception. *)
Theorem first_line_without_column_decides (records pre post : list WellRecord)
    (rec : WellRecord) (e : exn) :
  records = pre ++ rec :: post →
  all_parsed pre →
  parse_well (Well rec) = Raise e →
  convert_table_to_map records = Raise e
  ∧ (e = ValueError_nan_to_integer ∧ no_chars is_digit (Well rec)
     ∨ e = OverflowError_int_too_large ∧ ¬ no_chars is_digit (Well rec)).
Proof.
  intros -> Hpre He. split.
  - unfold convert_table_to_map, add_columns.
    rewrite (mapM_first_Raise new_columns pre rec post e); [done| |].
    + eapply Forall_impl; [exact Hpre|]. intros a [[r c] Hkey].
      unfold new_columns, parse_well in *.
      destruct (Well_col_of (Well a)); [by eexists | done].
    + by apply new_columns_Raise.
  - rewrite <-str_extract_Plus_None. fold regex_col.
    unfold parse_well, Well_col_of, astype_int64 in He.
    destruct (str_extract regex_col (Well rec)) as [ds|]; simpl in He.
    + destruct (int_of_digits ds <=? int64_max); simpl in He; [done|].
      injection He as <-. by right.
    + injection He as <-. by left.
Qed.

Lemma first_line_without_column_decides_witness :
  convert_table_to_map
    ([well_record "A01" "Unkn" "UT1"; well_record "A01" "Unkn" "UT2"]
     ++ well_record "B" "Unkn" "UT3"
     :: [well_record "C99999999999999999999" "Unkn" "UT4"])
  = Raise ValueError_nan_to_integer.
Proof.
  apply (first_line_without_column_decides _
           [well_record "A01" "Unkn" "UT1"; well_record "A01" "Unkn" "UT2"]
           [well_record "C99999999999999999999" "Unkn" "UT4"]
           (well_record "B" "Unkn" "UT3")).
  - reflexivity.
  - repeat constructor; eexists; reflexivity.
  - reflexivity.
Defined.

(** X3. For a table whose columns are handed over as texts, a map that is
    returned holds exactly one filled cell per line of the table, every
    filled cell at a labelled position, and always the rows and columns of
    the template, so that it never has fewer than 96 cells. *)
Theorem map_holds_every_line (records : list WellRecord) (g : DataFrame) :
  text_table records = true →
  convert_table_to_map records = Ok g →
  size (cells g) = List.length records
  ∧ df_wf g
  ∧ index df_tpl ⊆ index g
  ∧ columns df_tpl ⊆ columns g
  ∧ (96 ≤ df_size g)%nat.
Proof.
  intros _ Hg. pose proof (df_wf_convert _ _ Hg) as Hwf.
  destruct (convert_cells _ _ Hg) as (Hi & Hc & _).
  assert (Hsi : index df_tpl ⊆ index g) by (intros r Hr; apply Hi; by left).
  assert (Hsc : columns df_tpl ⊆ columns g) by (intros c Hc'; apply Hc; by left).
  split_and!; [|done..|].
  - apply convert_Ok in Hg as (tbl & Htbl & Hnd & ->).
    change (cells (combine_first (pivoted tbl) df_tpl))
      with (cells (pivoted tbl) ∪ cells df_tpl).
    rewrite cells_df_tpl, (right_id_L ∅ (∪)). unfold pivoted. cbn [cells].
    rewrite map_size_list_to_map by (by rewrite <-list_fmap_compose).
    rewrite length_fmap. unfold add_columns in Htbl. rewrite mapM_Ok in Htbl.
    symmetry. by eapply Forall2_length.
  - rewrite <-df_size_df_tpl. unfold df_size.
    apply Nat.mul_le_mono; by apply subseteq_size.
Qed.

Lemma map_holds_every_line_witness :
  ∃ g, convert_table_to_map
         [well_record "A01" "Unkn" "UT1"; well_record "K20" "Neg Ctrl" "x"]
       = Ok g
    ∧ size (cells g) = 2%nat.
Proof.
  eexists. split; [reflexivity|].
  apply (map_holds_every_line
           [well_record "A01" "Unkn" "UT1"; well_record "K20" "Neg Ctrl" "x"]);
    reflexivity.
Defined.

Lemma DataFrame_eq (g g' : DataFrame) :
  index g = index g' → columns g = columns g' → cells g = cells g' → g = g'.
Proof. destruct g, g'; simpl; by intros -> -> ->. Qed.

(** X4. The map does not depend on the order of the lines of the table:
    when the conversion of a table returns a map, the conversion of the same
    lines in any other order returns the same row labels, column labels and
    cells. *)
Theorem map_ignores_line_order (records records' : list WellRecord)
    (g : DataFrame) :
  records ≡ₚ records' →
  convert_table_to_map records = Ok g →
  convert_table_to_map records' = Ok g.
Proof.
  intros Hperm Hg.
  pose proof (convert_all_parsed _ _ Hg) as Hall.
  pose proof (convert_NoDup _ _ Hg) as Hnd.
  unfold all_parsed in Hall. rewrite Hperm in Hall.
  unfold well_keys in Hnd. rewrite Hperm in Hnd.
  destruct (convert_is_Ok records' Hall Hnd) as [g' Hg'].
  rewrite Hg'. f_equal.
  destruct (convert_cells _ _ Hg) as (Hi & Hc & Hat).
  destruct (convert_cells _ _ Hg') as (Hi' & Hc' & Hat').
  apply DataFrame_eq.
  - apply set_eq. intros r. rewrite Hi, Hi'.
    by setoid_rewrite Hperm.
  - apply set_eq. intros c. rewrite Hc, Hc'.
    by setoid_rewrite Hperm.
  - apply map_eq. intros [r c]. apply option_eq. intros l.
    unfold at_ in Hat, Hat'. rewrite Hat, Hat'.
    by setoid_rewrite Hperm.
Qed.

Lemma map_ignores_line_order_witness :
  convert_table_to_map
    [well_record "B02" "Pos Ctrl" "x"; well_record "A01" "Unkn" "UT1"]
  = convert_table_to_map
      [well_record "A01" "Unkn" "UT1"; well_record "B02" "Pos Ctrl" "x"].
Proof.
  destruct (convert_table_to_map
              [well_record "A01" "Unkn" "UT1"; well_record "B02" "Pos Ctrl" "x"])
    as [g|e] eqn:Hg; [|by vm_compute in Hg].
  apply (map_ignores_line_order _ _ g (Permutation_swap _ _ [])). exact Hg.
Defined.

(** ** The examinee of a label *)

(** X5. On every line of the table, the examinee of the label is missing
    exactly when the label holds no digit; otherwise it is the first run of
    digits of the label, the whole of it. *)
Theorem label_examinee_is_first_number (rec : WellRecord) (r : row) :
  new_columns rec = Ok r →
  Label r = Label_of rec
  ∧ (Label_examinee r = None ↔ no_chars is_digit (Label r))
  ∧ ∀ e, Label_examinee r = Some e →
      ∃ pre post, Label r = pre +:+ e +:+ post ∧ e ≠ "" ∧
        all_chars is_digit e ∧ no_chars is_digit pre ∧
        not_starting is_digit post.
Proof.
  intros Hr. apply new_columns_Ok in Hr as (_ & Hl & _ & _ & He).
  rewrite He, Hl. split_and!; [done | apply str_extract_Plus_None |].
  intros e. apply str_extract_Plus.
Qed.

Lemma label_examinee_is_first_number_witness :
  ∃ pre post, "UT100-7" = pre +:+ "100" +:+ post ∧
    no_chars is_digit pre ∧ not_starting is_digit post.
Proof.
  destruct (new_columns (well_record "A01" "Unkn" "UT100-7")) as [r|e] eqn:Hr;
    [|by vm_compute in Hr].
  destruct (label_examinee_is_first_number _ r Hr) as (Hl & _ & H).
  assert (Hr' := Hr). vm_compute in Hr'. injection Hr' as <-.
  destruct (H "100" eq_refl) as (pre & post & Hlab & _ & _ & Hpre & Hpost).
  exists pre, post. split_and!; [exact Hlab | exact Hpre | exact Hpost].
Defined.

(** ** The date and the time of a file *)

Lemma matches_ones ps m :
  Re.matches (ones ps) m ↔ Forall2 (fun p x => p x = true) ps m.
Proof.
  unfold ones. split.
  - revert m. induction ps as [|p ps IH]; intros m Hm; inversion Hm; simplify_eq/=.
    + constructor.
    + destruct H1 as [Hall Hlen]. simpl in Hlen.
      destruct m1 as [|x [|??]]; simplify_eq/=.
      apply Forall_cons in Hall as [Hx _]. constructor; [done | by apply IH].
  - induction 1 as [|p x ps m Hx _ IH]; simpl; [constructor|].
    apply (Re.matches_cons _ _ [x] m); [|done].
    split; [by repeat constructor | done].
Qed.

(** The match of [search] has no match of the pattern before it. *)
Lemma search_leftmost re s m :
  Re.search re s = Some m →
  ∃ pre post, s = pre ++ m ++ post ∧ Re.matches re m ∧
    ∀ pre1 m1 post1, s = pre1 ++ m1 ++ post1 → Re.matches re m1 →
      (List.length pre ≤ List.length pre1)%nat.
Proof.
  intros Hs. destruct (ReFacts.search_Some _ _ _ Hs) as (pre & rest & -> & Hm & Hleft).
  destruct (ReFacts.match_here_sound _ _ _ Hm) as [Hre [post ->]].
  exists pre, post. split_and!; [done..|].
  intros pre1 m1 post1 Heq Hm1.
  destruct (decide (List.length pre ≤ List.length pre1)%nat) as [|Hlt]; [done|].
  exfalso.
  assert (Hpre : pre = pre1 ++ drop (List.length pre1) pre).
  { rewrite <-(take_drop (List.length pre1) pre) at 1. f_equal.
    apply (f_equal (take (List.length pre1))) in Heq.
    rewrite take_app_le in Heq by lia.
    by rewrite take_app_length in Heq. }
  specialize (Hleft pre1 (drop (List.length pre1) pre) Hpre).
  rewrite Hpre, <-(assoc_L (++)) in Heq. apply app_inv_head in Heq.
  rewrite Heq in Hleft.
  destruct (ReFacts.match_here_complete re m1 post1 Hm1) as [? Hsome].
  rewrite Hleft in Hsome; [done|].
  intros Hnil. apply (f_equal List.length) in Hnil.
  rewrite length_drop in Hnil. simpl in Hnil. lia.
Qed.

Lemma is_digit_not_lit c x :
  is_digit c = true → is_digit x = false → lit x c = false.
Proof.
  intros Hc Hx. unfold lit. apply bool_decide_eq_false. intros ->. congruence.
Qed.

Lemma digits_2 a b : is_digit a = true → is_digit b = true →
  digits 2 (String a (String b "")).
Proof. intros. split; [done | by repeat constructor]. Qed.

Lemma digits_4 a b c d :
  is_digit a = true → is_digit b = true → is_digit c = true →
  is_digit d = true → digits 4 (String a (String b (String c (String d "")))).
Proof. intros. split; [done | by repeat constructor]. Qed.

Lemma matches_regex_date m :
  Re.matches regex_date m →
  ∃ yyyy mm dd,
    string_of_list_ascii m = yyyy +:+ "-" +:+ mm +:+ "-" +:+ dd ∧
    digits 4 yyyy ∧ digits 2 mm ∧ digits 2 dd ∧
    re_sub_class (lit "-") "/" (string_of_list_ascii m)
    = yyyy +:+ "/" +:+ mm +:+ "/" +:+ dd.
Proof.
  unfold regex_date. rewrite matches_ones. intros H.
  repeat match goal with
         | H : Forall2 _ (_ :: _) _ |- _ =>
             apply Forall2_cons_inv_l in H as (? & ? & ? & H & ->)
         | H : Forall2 _ [] _ |- _ => apply Forall2_nil_inv_l in H as ->
         end.
  repeat match goal with
         | H : lit _ _ = true |- _ => apply bool_decide_eq_true in H as ->
         end.
  eexists (String _ (String _ (String _ (String _ "")))),
    (String _ (String _ "")), (String _ (String _ "")).
  split_and!; [reflexivity | by apply digits_4 | by apply digits_2
              | by apply digits_2 |].
  simpl.
  rewrite !(is_digit_not_lit _ "-"%char) by done. reflexivity.
Qed.

Lemma matches_regex_time m :
  Re.matches regex_time m →
  ∃ hh mm ss,
    string_of_list_ascii m = " " +:+ hh +:+ "-" +:+ mm +:+ "-" +:+ ss ∧
    digits 2 hh ∧ digits 2 mm ∧ digits 2 ss ∧
    re_sub_class (lit "-") ":" (string_of_list_ascii m)
    = " " +:+ hh +:+ ":" +:+ mm +:+ ":" +:+ ss.
Proof.
  unfold regex_time. rewrite matches_ones. intros H.
  repeat match goal with
         | H : Forall2 _ (_ :: _) _ |- _ =>
             apply Forall2_cons_inv_l in H as (? & ? & ? & H & ->)
         | H : Forall2 _ [] _ |- _ => apply Forall2_nil_inv_l in H as ->
         end.
  repeat match goal with
         | H : lit _ _ = true |- _ => apply bool_decide_eq_true in H as ->
         end.
  eexists (String _ (String _ "")), (String _ (String _ "")),
    (String _ (String _ "")).
  split_and!; [reflexivity | by apply digits_2 | by apply digits_2
              | by apply digits_2 |].
  simpl.
  rewrite !(is_digit_not_lit _ "-"%char) by done. reflexivity.
Qed.

Lemma length_chars s : List.length (chars s) = String.length s.
Proof. induction s as [|c s IH]; simpl; [done | by f_equal]. Qed.

Lemma digits_2_inv s :
  digits 2 s → ∃ a b, s = String a (String b "") ∧
    is_digit a = true ∧ is_digit b = true.
Proof.
  intros [Hlen Hall]. destruct s as [|a [|b [|??]]]; try done.
  inversion Hall as [|?? Ha Hall']; subst. inversion Hall'; subst. eauto.
Qed.

Lemma digits_4_inv s :
  digits 4 s → ∃ a b c d, s = String a (String b (String c (String d ""))) ∧
    is_digit a = true ∧ is_digit b = true ∧ is_digit c = true ∧
    is_digit d = true.
Proof.
  intros [Hlen Hall]. destruct s as [|a [|b [|c [|d [|??]]]]]; try done.
  inversion Hall as [|?? Ha H1]; subst. inversion H1 as [|?? Hb H2]; subst.
  inversion H2 as [|?? Hc H3]; subst. inversion H3; subst.
  exists a, b, c, d. by split_and!.
Qed.

Lemma is_date_matches m : is_date m ↔ Re.matches regex_date (chars m).
Proof.
  split.
  - intros (yyyy & mm & dd & -> & Hy & Hm & Hd).
    apply digits_4_inv in Hy as (y1 & y2 & y3 & y4 & -> & ? & ? & ? & ?).
    apply digits_2_inv in Hm as (m1 & m2 & -> & ? & ?).
    apply digits_2_inv in Hd as (d1 & d2 & -> & ? & ?).
    apply matches_ones. simpl.
    repeat constructor; try done; by apply bool_decide_eq_true.
  - intros H. apply matches_regex_date in H as (yyyy & mm & dd & H & ? & ? & ? & _).
    rewrite string_of_list_ascii_of_string in H. by exists yyyy, mm, dd.
Qed.

Lemma is_time_matches m : is_time m ↔ Re.matches regex_time (chars m).
Proof.
  split.
  - intros (hh & mm & ss & -> & Hh & Hm & Hs).
    apply digits_2_inv in Hh as (h1 & h2 & -> & ? & ?).
    apply digits_2_inv in Hm as (m1 & m2 & -> & ? & ?).
    apply digits_2_inv in Hs as (s1 & s2 & -> & ? & ?).
    apply matches_ones. simpl.
    repeat constructor; try done; by apply bool_decide_eq_true.
  - intros H. apply matches_regex_time in H as (hh & mm & ss & H & ? & ? & ? & _).
    rewrite string_of_list_ascii_of_string in H. by exists hh, mm, ss.
Qed.

Lemma group0_None re s :
  group0 re s = None ↔
  ¬ ∃ pre m post, s = pre +:+ m +:+ post ∧ Re.matches re (chars m).
Proof.
  unfold group0. rewrite fmap_None, eq_None_not_Some, ReFacts.search_is_Some.
  apply not_iff_compat. split.
  - intros (pre & m & post & Hs & Hm).
    exists (string_of_list_ascii pre), (string_of_list_ascii m),
      (string_of_list_ascii post).
    split; [by apply chars_split3|].
    by rewrite list_ascii_of_string_of_list_ascii.
  - intros (pre & m & post & -> & Hm).
    exists (chars pre), (chars m), (chars post). by rewrite !chars_app.
Qed.

Lemma group0_Some re s m :
  group0 re s = Some m →
  ∃ pre post, s = pre +:+ m +:+ post ∧ Re.matches re (chars m) ∧
    ∀ pre1 m1 post1, s = pre1 +:+ m1 +:+ post1 → Re.matches re (chars m1) →
      (String.length pre ≤ String.length pre1)%nat.
Proof.
  unfold group0. intros H. apply fmap_Some in H as (l & Hs & ->).
  apply search_leftmost in Hs as (pre & post & Hs & Hm & Hleft).
  exists (string_of_list_ascii pre), (string_of_list_ascii post).
  rewrite list_ascii_of_string_of_list_ascii.
  split_and!; [by apply chars_split3 | done |].
  intros pre1 m1 post1 -> Hm1.
  rewrite <-!length_chars, list_ascii_of_string_of_list_ascii.
  apply (Hleft (chars pre1) (chars m1) (chars post1)); [|done].
  by rewrite !chars_app.
Qed.

(** X6. The date of a file is missing exactly when the name of the file
    holds no date written as four digits, two digits and two digits joined
    by hyphens; otherwise it is the first such date of the name, with the
    same digits and a slash for each hyphen. *)
Theorem created_date_is_first_date (tbl : string) :
  (created_date tbl = None ↔
   ¬ ∃ pre m post, tbl = pre +:+ m +:+ post ∧ is_date m)
  ∧ ∀ d, created_date tbl = Some d →
      ∃ pre yyyy mm dd post,
        tbl = pre +:+ (yyyy +:+ "-" +:+ mm +:+ "-" +:+ dd) +:+ post ∧
        digits 4 yyyy ∧ digits 2 mm ∧ digits 2 dd ∧
        d = yyyy +:+ "/" +:+ mm +:+ "/" +:+ dd ∧
        ∀ pre1 m1 post1, tbl = pre1 +:+ m1 +:+ post1 → is_date m1 →
          (String.length pre ≤ String.length pre1)%nat.
Proof.
  unfold created_date. split.
  - rewrite fmap_None, group0_None. apply not_iff_compat.
    by setoid_rewrite is_date_matches.
  - intros d H. apply fmap_Some in H as (m & Hm & ->).
    apply group0_Some in Hm as (pre & post & Htbl & Hm & Hleft).
    destruct (matches_regex_date _ Hm) as (yyyy & mm & dd & Heq & ? & ? & ? & Hsub).
    rewrite string_of_list_ascii_of_string in Heq, Hsub. subst m.
    exists pre, yyyy, mm, dd, post. split_and!; [done..|].
    intros pre1 m1 post1 Htbl1 Hm1. eapply Hleft; [done|].
    by apply is_date_matches.
Qed.

(** X7. The time of a file is missing exactly when the name of the file
    holds no space followed by three pairs of digits joined by hyphens;
    otherwise it is the first such time of the name, with a colon for each
    hyphen, and it keeps the space in front. *)
Theorem created_time_keeps_the_space (tbl : string) :
  (created_time tbl = None ↔
   ¬ ∃ pre m post, tbl = pre +:+ m +:+ post ∧ is_time m)
  ∧ ∀ t, created_time tbl = Some t →
      ∃ pre hh mm ss post,
        tbl = pre +:+ (" " +:+ hh +:+ "-" +:+ mm +:+ "-" +:+ ss) +:+ post ∧
        digits 2 hh ∧ digits 2 mm ∧ digits 2 ss ∧
        t = " " +:+ hh +:+ ":" +:+ mm +:+ ":" +:+ ss ∧
        ∀ pre1 m1 post1, tbl = pre1 +:+ m1 +:+ post1 → is_time m1 →
          (String.length pre ≤ String.length pre1)%nat.
Proof.
  unfold created_time. split.
  - rewrite fmap_None, group0_None. apply not_iff_compat.
    by setoid_rewrite is_time_matches.
  - intros d H. apply fmap_Some in H as (m & Hm & ->).
    apply group0_Some in Hm as (pre & post & Htbl & Hm & Hleft).
    destruct (matches_regex_time _ Hm) as (hh & mm & ss & Heq & ? & ? & ? & Hsub).
    rewrite string_of_list_ascii_of_string in Heq, Hsub. subst m.
    exists pre, hh, mm, ss, post. split_and!; [done..|].
    intros pre1 m1 post1 Htbl1 Hm1. eapply Hleft; [done|].
    by apply is_time_matches.
Qed.

Example created_of_a_name :
  created_date "Admin_2022-09-02 12-26-21.xlsx" = Some "2022/09/02"
  ∧ created_time "Admin_2022-09-02 12-26-21.xlsx" = Some " 12:26:21"
  ∧ created_time "12-26-21.xlsx" = None.
Proof. done. Qed.

Lemma created_date_is_first_date_witness :
  ∃ pre yyyy mm dd post,
    "run 2022-09-02 and 2023-01-15.xlsx"
    = pre +:+ (yyyy +:+ "-" +:+ mm +:+ "-" +:+ dd) +:+ post ∧
    "2022/09/02" = yyyy +:+ "/" +:+ mm +:+ "/" +:+ dd.
Proof.
  destruct (proj2 (created_date_is_first_date
                     "run 2022-09-02 and 2023-01-15.xlsx") "2022/09/02")
    as (pre & yyyy & mm & dd & post & H1 & _ & _ & _ & H2 & _).
  - reflexivity.
  - exists pre, yyyy, mm, dd, post. split; [exact H1 | exact H2].
Defined.

Lemma created_time_keeps_the_space_witness :
  ∃ hh mm ss, " 12:26:21" = " " +:+ hh +:+ ":" +:+ mm +:+ ":" +:+ ss.
Proof.
  destruct (proj2 (created_time_keeps_the_space
                     "Admin_2022-09-02 12-26-21.xlsx") " 12:26:21")
    as (pre & hh & mm & ss & post & _ & _ & _ & _ & H2 & _).
  - reflexivity.
  - exists hh, mm, ss. exact H2.
Defined.

(** ** The dict of the colors, from the entries of the configuration *)

Lemma split_semicolon_cons s : ∃ w ws, split_semicolon s = w :: ws.
Proof.
  destruct s as [|c s]; simpl; [by eexists _, _|].
  case_bool_decide; [by eexists _, _|].
  destruct (split_semicolon s); by eexists _, _.
Qed.

Lemma concat_cons_cons sep x y l :
  String.concat sep (x :: y :: l) = x +:+ sep +:+ String.concat sep (y :: l).
Proof. reflexivity. Qed.

(** X8. Splitting an entry at its semicolons loses nothing: joining the
    pieces with semicolons gives the entry back, there is one piece more
    than there are semicolons, and no piece holds a semicolon. *)
Theorem split_semicolon_round_trip (s : string) :
  String.concat ";" (split_semicolon s) = s
  ∧ List.length (split_semicolon s) = S (count_chars (lit ";") s)
  ∧ Forall (no_chars (lit ";")) (split_semicolon s).
Proof.
  induction s as [|c s (IH1 & IH2 & IH3)].
  - split_and!; [done..|]. repeat constructor.
  - destruct (split_semicolon_cons s) as (w & ws & Hs).
    cbn [split_semicolon count_chars]. rewrite Hs in *.
    unfold lit at 1. case_bool_decide as Hc.
    + subst c. split_and!.
      * rewrite concat_cons_cons, IH1. done.
      * simpl in *. lia.
      * constructor; [constructor | done].
    + split_and!.
      * destruct ws as [|w' ws]; [by rewrite <-IH1|].
        rewrite concat_cons_cons in IH1. rewrite concat_cons_cons.
        by rewrite <-IH1.
      * simpl in *. lia.
      * apply Forall_cons in IH3 as [Hw Hws]. constructor; [|done].
        constructor; [|done]. unfold lit. by apply bool_decide_eq_false.
Qed.

Lemma highlight_entry_Some h :
  is_Some (highlight_entry h) ↔ count_chars (lit ";") h = 2%nat.
Proof.
  unfold highlight_entry.
  destruct (split_semicolon_round_trip h) as (_ & Hlen & _).
  destruct (split_semicolon h) as [|a [|b [|c [|??]]]]; simpl in Hlen;
    split; intros H; try (by destruct H); try lia; by eexists.
Qed.

Lemma build_color_map_cons h rest d :
  build_color_map (h :: rest) d =
  match highlight_entry h with
  | Some e => build_color_map rest (dict_set d e.1 e.2)
  | None => Raise ValueError_unpack
  end.
Proof.
  unfold highlight_entry. simpl.
  by destruct (split_semicolon h) as [|a [|b [|c [|??]]]].
Qed.

(** X9. The dict of the colors is built exactly when every entry holds two
    semicolons; an entry with fewer or more of them raises ValueError, and
    then no dict is built, whatever the other entries. *)
Theorem color_map_needs_two_semicolons (highlight : list string)
    (color_map : dict colors) :
  ((∃ d, build_color_map highlight color_map = Ok d) ↔
   Forall (fun hlgt => count_chars (lit ";") hlgt = 2%nat) highlight)
  ∧ (build_color_map highlight color_map = Raise ValueError_unpack ↔
     Exists (fun hlgt => count_chars (lit ";") hlgt ≠ 2%nat) highlight).
Proof.
  revert color_map. induction highlight as [|h rest IH]; intros d.
  - simpl. split.
    + split; [intros _; apply Forall_nil_2 | intros _; by exists d].
    + split; [done | by intros ?%Exists_nil].
  - rewrite build_color_map_cons, Forall_cons, Exists_cons.
    rewrite <-highlight_entry_Some.
    destruct (highlight_entry h) as [e|] eqn:He.
    + destruct (IH (dict_set d e.1 e.2)) as [IH1 IH2]. split.
      * rewrite IH1. split; [intros ?; split; [by eexists | done] | by intros [_ ?]].
      * rewrite IH2. split; [by right | intros [Hn|?]; [|done]].
        exfalso. apply Hn. by eexists.
    + split.
      * split; [by intros [? ?] | by intros [[? ?] _]].
      * split; [intros _; left; by intros [? ?] | done].
Qed.

Lemma dict_get_set {V} (d : dict V) k v k' :
  dict_get (dict_set d k v) k' = if decide (k = k') then Some v else dict_get d k'.
Proof.
  induction d as [|[k0 v0] d IH]; simpl.
  - destruct (decide (k = k')).
    + by rewrite bool_decide_eq_true_2.
    + by rewrite bool_decide_eq_false_2.
  - destruct (decide (k0 = k)) as [->|Hne].
    + rewrite bool_decide_eq_true_2 by done. simpl.
      destruct (decide (k = k')).
      * by rewrite !bool_decide_eq_true_2.
      * by rewrite !bool_decide_eq_false_2.
    + rewrite bool_decide_eq_false_2 by done. simpl. rewrite IH.
      destruct (decide (k = k')) as [<-|]; [|done].
      by rewrite bool_decide_eq_false_2.
Qed.

Lemma dict_set_fst {V} (d : dict V) k v :
  (dict_set d k v).*1 = if decide (k ∈ d.*1) then d.*1 else d.*1 ++ [k].
Proof.
  induction d as [|[k0 v0] d IH].
  - rewrite decide_False; [done|]. by intros ?%elem_of_nil.
  - cbn [dict_set]. destruct (decide (k0 = k)) as [->|Hne].
    + rewrite bool_decide_eq_true_2 by done.
      rewrite decide_True; [done | apply list_elem_of_here].
    + rewrite bool_decide_eq_false_2 by done.
      rewrite fmap_cons, IH. destruct (decide (k ∈ d.*1)).
      * rewrite decide_True; [done|]. by apply list_elem_of_further.
      * rewrite decide_False; [done|].
        rewrite fmap_cons. intros [Hk|?]%elem_of_cons; [|done].
        simpl in Hk. by subst.
Qed.

Lemma build_color_map_set_all hl d d' :
  build_color_map hl d = Ok d' ↔
  ∃ es, Forall2 (fun h e => highlight_entry h = Some e) hl es ∧
    d' = set_all d es.
Proof.
  revert d. induction hl as [|h rest IH]; intros d.
  - simpl. split.
    + intros [= <-]. exists []. split; [constructor | done].
    + intros (es & Hes & ->). by inversion Hes.
  - rewrite build_color_map_cons.
    destruct (highlight_entry h) as [e|] eqn:He.
    + rewrite IH. split.
      * intros (es & Hes & ->). exists (e :: es). split; [by constructor | done].
      * intros (es & Hes & ->). inversion Hes as [|???? He' Hes']; subst.
        rewrite He in He'. injection He' as <-. by exists l'.
    + split; [done|]. intros (es & Hes & _). inversion Hes; congruence.
Qed.

Lemma set_all_get_other d es k :
  k ∉ es.*1 → dict_get (set_all d es) k = dict_get d k.
Proof.
  revert d. induction es as [|[k0 c0] es IH]; intros d Hk; [done|].
  simpl in *. apply not_elem_of_cons in Hk as [Hne Hk].
  unfold set_all in *. simpl. rewrite IH by done.
  rewrite dict_get_set. by rewrite decide_False.
Qed.

Lemma set_all_fst d es :
  ∃ ks, (set_all d es).*1 = d.*1 ++ ks ∧ ∀ k, k ∈ ks → k ∈ es.*1.
Proof.
  revert d. induction es as [|[k0 c0] es IH]; intros d.
  - exists []. split; [by rewrite (right_id_L [] (++)) | by intros ? ?%elem_of_nil].
  - destruct (IH (dict_set d k0 c0)) as (ks & Hks & Hin).
    unfold set_all in *. simpl. rewrite Hks, dict_set_fst.
    destruct (decide (k0 ∈ d.*1)).
    + exists ks. split; [done|]. intros k Hk. simpl. by apply list_elem_of_further, Hin.
    + exists (k0 :: ks). split; [by rewrite <-(assoc_L (++))|].
      intros k [->|Hk]%elem_of_cons; simpl; [apply list_elem_of_here|].
      by apply list_elem_of_further, Hin.
Qed.

Lemma set_all_keys d es k :
  k ∈ (set_all d es).*1 ↔ k ∈ d.*1 ∨ k ∈ es.*1.
Proof.
  revert d. induction es as [|[k0 c0] es IH]; intros d.
  - simpl. rewrite elem_of_nil. tauto.
  - unfold set_all in *. simpl. rewrite IH, dict_set_keys, elem_of_cons. tauto.
Qed.

Lemma set_all_NoDup d es : NoDup d.*1 → NoDup (set_all d es).*1.
Proof.
  revert d. induction es as [|[k0 c0] es IH]; intros d Hd; [done|].
  unfold set_all in *. simpl. apply IH. by apply dict_set_NoDup.
Qed.

Lemma set_all_get_last d es1 k c es2 :
  k ∉ es2.*1 → dict_get (set_all d (es1 ++ (k, c) :: es2)) k = Some c.
Proof.
  intros Hk. unfold set_all. rewrite foldl_app. simpl.
  fold (set_all d es1). fold (set_all (dict_set (set_all d es1) k c) es2).
  rewrite set_all_get_other by done.
  rewrite dict_get_set. by rewrite decide_True.
Qed.

Lemma entries_without_key hl2 es2 k :
  Forall2 (fun h e => highlight_entry h = Some e) hl2 es2 →
  (∀ h' c', h' ∈ hl2 → highlight_entry h' ≠ Some (k, c')) →
  k ∉ es2.*1.
Proof.
  intros Hes2 Hlast ([k' c'] & Hk & Hin)%list_elem_of_fmap.
  simpl in Hk. subst k'.
  destruct (Forall2_exists_r _ _ _ _ Hes2 Hin) as (h' & Hh' & He2).
  by eapply Hlast.
Qed.

(** X10. In the dict built from the entries of the configuration no pattern
    stands twice, the patterns are those of the entries, and the colors of a
    pattern are those of the last entry that names it. *)
Theorem color_map_keeps_last_colors (highlight : list string)
    (d : dict colors) :
  build_color_map highlight [] = Ok d →
  NoDup d.*1
  ∧ (∀ k, k ∈ d.*1 ↔
       ∃ hlgt c, hlgt ∈ highlight ∧ highlight_entry hlgt = Some (k, c))
  ∧ (∀ hl1 hlgt hl2 k c,
       highlight = hl1 ++ hlgt :: hl2 →
       highlight_entry hlgt = Some (k, c) →
       (∀ h' c', h' ∈ hl2 → highlight_entry h' ≠ Some (k, c')) →
       dict_get d k = Some c).
Proof.
  intros Hd. apply build_color_map_set_all in Hd as (es & Hes & ->).
  split_and!.
  - apply set_all_NoDup. constructor.
  - intros k. rewrite set_all_keys. split.
    + intros [Hnil|Hin]; [by apply elem_of_nil in Hnil|].
      apply list_elem_of_fmap in Hin as ([k' c] & -> & Hin).
      destruct (Forall2_exists_r _ _ _ _ Hes Hin) as (h & Hh & He). eauto.
    + intros (h & c & Hin & He). right. apply list_elem_of_fmap.
      destruct (Forall2_exists_l _ _ _ _ Hes Hin) as (e & Hein & He').
      exists e. split; [|done]. rewrite He in He'. by injection He' as <-.
  - intros hl1 h hl2 k c -> He Hlast.
    apply Forall2_app_inv_l in Hes as (es1 & es' & Hes1 & Hes' & ->).
    apply Forall2_cons_inv_l in Hes' as (e & es2 & He' & Hes2 & ->).
    rewrite He in He'. injection He' as <-.
    apply set_all_get_last. by eapply entries_without_key.
Qed.

Lemma color_map_keeps_last_colors_witness :
  ∃ d, build_color_map ["Ctrl;yellow;"; "Pos;;red"; "Ctrl;;blue"] [] = Ok d
    ∧ dict_get d "Ctrl"
      = Some {| background_color := ""; text_color := "blue" |}.
Proof.
  eexists. split; [reflexivity|].
  apply (proj2 (proj2 (color_map_keeps_last_colors
                         ["Ctrl;yellow;"; "Pos;;red"; "Ctrl;;blue"] _ eq_refl))
           ["Ctrl;yellow;"; "Pos;;red"] "Ctrl;;blue" []).
  - reflexivity.
  - reflexivity.
  - intros h' c' Hin. by apply elem_of_nil in Hin.
Defined.

Lemma dict_get_app_cons {V} (pre post : dict V) k v :
  k ∉ pre.*1 → dict_get (pre ++ (k, v) :: post) k = Some v.
Proof.
  induction pre as [|[k0 v0] pre IH]; simpl; intros Hk.
  - by rewrite bool_decide_eq_true_2.
  - apply not_elem_of_cons in Hk as [Hne Hk].
    rewrite bool_decide_eq_false_2 by done. by apply IH.
Qed.

(** X11. The style of a cell, from the entries of the configuration: the
    pattern that counts is the one of the first entry whose pattern matches
    the text of the cell, and the colors are those the dict holds for this
    pattern, which are the colors of the last entry that names it. *)
Theorem style_from_entries (re_search : string → string → bool)
    (val : option string) (highlight hl1 hl2 : list string) (hlgt : string)
    (d : dict colors) (k : string) (c0 : colors) :
  build_color_map highlight [] = Ok d →
  highlight = hl1 ++ hlgt :: hl2 →
  highlight_entry hlgt = Some (k, c0) →
  re_search k (str val) = true →
  (∀ h' k' c', h' ∈ hl1 → highlight_entry h' = Some (k', c') →
     re_search k' (str val) = false) →
  ∃ c, dict_get d k = Some c
    ∧ highlight_cells re_search val d = the_color_of (color_lst_of c)
    ∧ ((∀ h' c', h' ∈ hl2 → highlight_entry h' ≠ Some (k, c')) → c = c0).
Proof.
  intros Hd -> He Hk Hpre.
  apply build_color_map_set_all in Hd as (es & Hes & ->).
  apply Forall2_app_inv_l in Hes as (es1 & es' & Hes1 & Hes' & ->).
  apply Forall2_cons_inv_l in Hes' as (e & es2 & He' & Hes2 & ->).
  rewrite He in He'. injection He' as <-.
  assert (Hk1 : ∀ k', k' ∈ (set_all [] es1).*1 → re_search k' (str val) = false).
  { intros k' [Hnil|Hin]%set_all_keys; [by apply elem_of_nil in Hnil|].
    apply list_elem_of_fmap in Hin as ([k'' c''] & -> & Hin).
    destruct (Forall2_exists_r _ _ _ _ Hes1 Hin) as (h' & Hh' & He1).
    by eapply Hpre. }
  assert (Hnotin : k ∉ (set_all [] es1).*1).
  { intros Hin. apply Hk1 in Hin. congruence. }
  assert (Hkeys : ∃ ks, (set_all [] (es1 ++ (k, c0) :: es2)).*1
                        = (set_all [] es1).*1 ++ k :: ks).
  { unfold set_all. rewrite foldl_app. simpl.
    destruct (set_all_fst (dict_set (set_all [] es1) k c0) es2) as (ks & Hks & _).
    unfold set_all in Hks. rewrite Hks, dict_set_fst.
    rewrite decide_False by done. exists ks. by rewrite <-(assoc_L (++)). }
  destruct Hkeys as (ks & Hkeys).
  apply fmap_app_inv in Hkeys as (pre & rest & Hpre1 & Hrest & Hsplit).
  symmetry in Hrest. apply fmap_cons_inv in Hrest as ([k' c] & post & Hkc & _ & ->).
  simpl in Hkc. subst k'.
  exists c. rewrite Hsplit. split_and!.
  - apply dict_get_app_cons. by rewrite <-Hpre1.
  - apply highlight_cells_first; [|done].
    apply Forall_forall. intros [k' c'] Hin. simpl. apply Hk1.
    rewrite Hpre1. apply list_elem_of_fmap. by exists (k', c').
  - intros Hlast.
    pose proof (set_all_get_last [] es1 k c0 es2
                  (entries_without_key _ _ _ Hes2 Hlast)) as Hget.
    rewrite Hsplit, dict_get_app_cons in Hget by (by rewrite <-Hpre1).
    congruence.
Qed.

Lemma style_from_entries_witness :
  ∃ d, build_color_map ["Neg;;blue"; "Ctrl;yellow;"; "Pos;;red"; "Ctrl;;green"] []
       = Ok d
    ∧ highlight_cells re_search_literal (Some "Pos Ctrl") d
      = Some "color:green".
Proof.
  eexists. split; [reflexivity|].
  destruct (style_from_entries re_search_literal (Some "Pos Ctrl")
              ["Neg;;blue"; "Ctrl;yellow;"; "Pos;;red"; "Ctrl;;green"]
              ["Neg;;blue"] ["Pos;;red"; "Ctrl;;green"] "Ctrl;yellow;" _
              "Ctrl" {| background_color := "yellow"; text_color := "" |}
              eq_refl eq_refl eq_refl eq_refl)
    as (c & Hget & Hstyle & _).
  - intros h' k' c' Hin He.
    apply list_elem_of_singleton in Hin. subst h'.
    injection He as <- _. reflexivity.
  - vm_compute in Hget. injection Hget as <-. exact Hstyle.
Defined.

(** ** The style of a cell, exactly *)

Lemma first_match_split (re_search : string → string → bool) text
    (color_map : dict colors) :
  no_match re_search text color_map
  ∨ ∃ pre k c post, color_map = pre ++ (k, c) :: post ∧
      no_match re_search text pre ∧ re_search k text = true.
Proof.
  induction color_map as [|[k c] rest IH]; [left; constructor|].
  destruct (re_search k text) eqn:Hk.
  - right. exists [], k, c, rest. split_and!; [done | constructor | done].
  - destruct IH as [Hno|(pre & k' & c' & post & -> & Hpre & Hk')].
    + left. by constructor.
    + right. exists ((k, c) :: pre), k', c', post.
      split_and!; [done | by constructor | done].
Qed.

Lemma color_lst_of_nil c :
  color_lst_of c = [] ↔ background_color c = "" ∧ text_color c = "".
Proof.
  unfold color_lst_of. destruct c as [[|b bs] [|t ts]]; simpl; split;
    try done; by intros [? ?].
Qed.

(** X12. A cell has no style in two cases only: no pattern of the dict
    matches the text of the cell, or the first pattern that matches has two
    empty colors. In every other case it has one. *)
Theorem style_is_missing_iff (re_search : string → string → bool)
    (val : option string) (color_map : dict colors) :
  highlight_cells re_search val color_map = None ↔
  no_match re_search (str val) color_map
  ∨ ∃ pre k c post, color_map = pre ++ (k, c) :: post ∧
      no_match re_search (str val) pre ∧ re_search k (str val) = true ∧
      background_color c = "" ∧ text_color c = "".
Proof.
  split.
  - intros Hnone.
    destruct (first_match_split re_search (str val) color_map)
      as [?|(pre & k & c & post & -> & Hpre & Hk)]; [by left|right].
    exists pre, k, c, post. split_and!; [done..| |].
    all: rewrite highlight_cells_first in Hnone by done;
      unfold the_color_of in Hnone;
      destruct (color_lst_of c) eqn:Hc; [|done];
      by apply color_lst_of_nil in Hc as [? ?].
  - intros [Hno|(pre & k & c & post & -> & Hpre & Hk & Hb & Ht)].
    + unfold highlight_cells. by rewrite highlight_loop_no_match.
    + rewrite highlight_cells_first by done.
      by rewrite (proj2 (color_lst_of_nil c)).
Qed.

(** ** The names of the files *)

Lemma app_String c a b : String c a +:+ b = String c (a +:+ b).
Proof. reflexivity. Qed.

Lemma no_chars_app p a b :
  no_chars p (a +:+ b) ↔ no_chars p a ∧ no_chars p b.
Proof. unfold no_chars. rewrite chars_app. apply Forall_app. Qed.

Lemma re_sub_class_no_chars p repl s :
  no_chars p repl → no_chars p (re_sub_class p repl s).
Proof.
  intros Hrepl. induction s as [|c s IH]; simpl; [constructor|].
  destruct (p c) eqn:Hc.
  - by apply no_chars_app.
  - by constructor.
Qed.

Lemma re_sub_class_id p repl s :
  no_chars p s → re_sub_class p repl s = s.
Proof.
  induction s as [|c s IH]; simpl; [done|].
  intros [Hc Hs]%Forall_cons. rewrite Hc. f_equal. by apply IH.
Qed.

(** X13. [concat_path_and_files] returns one name per file, in the order of
    the files; no name holds a backslash; and when the expanded path and the
    expanded file hold none, the name is the path, a slash and the file. *)
Theorem concat_path_and_files_slashes (expandvars : string → string)
    (the_path : string) (the_files : list string) :
  List.length (concat_path_and_files expandvars the_path the_files)
  = List.length the_files
  ∧ Forall (no_chars (lit "\"%char))
           (concat_path_and_files expandvars the_path the_files)
  ∧ ∀ i f, the_files !! i = Some f →
      no_chars (lit "\"%char) (expandvars the_path) →
      no_chars (lit "\"%char) (expandvars f) →
      concat_path_and_files expandvars the_path the_files !! i
      = Some (expandvars the_path +:+ "/" +:+ expandvars f).
Proof.
  unfold concat_path_and_files. split_and!.
  - apply length_fmap.
  - apply Forall_fmap, Forall_forall. intros f _. simpl.
    apply re_sub_class_no_chars. by repeat constructor.
  - intros i f Hf Hp Hfile. rewrite list_lookup_fmap, Hf. simpl. f_equal.
    apply re_sub_class_id. rewrite !no_chars_app. split_and!; [done| |done].
    by repeat constructor.
Qed.

Lemma concat_path_and_files_slashes_witness :
  concat_path_and_files (fun s => s) "/data/pcr" ["a.xlsx"; "b.xlsx"] !! 1%nat
  = Some "/data/pcr/b.xlsx".
Proof.
  apply (proj2 (proj2 (concat_path_and_files_slashes
                         (fun s => s) "/data/pcr" ["a.xlsx"; "b.xlsx"]))).
  - reflexivity.
  - by repeat constructor.
  - by repeat constructor.
Defined.

(** *** Names that are not patterns *)

Lemma search_at_end_matches re s :
  search_at_end re s = true →
  ∃ pre m rest, s = pre ++ m ++ rest ∧ Re.matches re m.
Proof.
  induction s as [|c s IH]; simpl.
  - destruct (Re.match_here re []) as [m|] eqn:Hm; [|done]. intros _.
    apply ReFacts.match_here_sound in Hm as [Hm [rest Hs]].
    by exists [], m, rest.
  - destruct (Re.match_here re (c :: s)) as [m|] eqn:Hm.
    + intros _. apply ReFacts.match_here_sound in Hm as [Hm [rest Hs]].
      by exists [], m, rest.
    + simpl. intros H. destruct (IH H) as (pre & m & rest & -> & Hre).
      by exists (c :: pre), m, rest.
Qed.

Lemma to_lower_bang x : to_lower x = "!"%char → x = "!"%char.
Proof.
  destruct x as [[] [] [] [] [] [] [] []]; vm_compute; congruence.
Qed.

Lemma re_hook_bang inp : re_hook inp = true → ¬ no_chars (lit "!"%char) inp.
Proof.
  unfold re_hook. intros H Hno.
  apply existsb_exists in H as (alt & Halt & H).
  apply search_at_end_matches in H as (pre & m & rest & Hs & Hm).
  apply ReFacts.matches_lits, Forall2_lit_i in Hm.
  assert (∃ t, chars alt = "!"%char :: t) as [t Ht].
  { simpl in Halt. destruct Halt as [<-|[<-|[<-|[<-|[]]]]]; by eexists. }
  rewrite Ht in Hm. destruct m as [|x m]; [done|].
  simpl in Hm. injection Hm as Hx _.
  change (to_lower "!") with "!"%char in Hx. apply to_lower_bang in Hx. subst x.
  unfold no_chars in Hno. rewrite Hs in Hno.
  apply Forall_app in Hno as [_ Hno]. apply Forall_cons in Hno as [Hno _].
  by vm_compute in Hno.
Qed.

Lemma mapM_Returns {A B} (f : A → outcome B) l k :
  mapM f l = Returns k ↔ Forall2 (fun x y => f x = Returns y) l k.
Proof.
  split.
  - revert k. induction l as [|x l IH]; intros k; simpl.
    + intros [= <-]. constructor.
    + destruct (f x) as [y|e|] eqn:Hx; [|done..]. simpl.
      destruct (mapM f l) as [k'|e|]; [|done..]. simpl.
      intros [= <-]. constructor; [done | by apply IH].
  - induction 1 as [|x y l k Hx _ IH]; simpl; [done|].
    by rewrite Hx, IH.
Qed.

Section FilesFacts.

Variable os : os_name.
Variable expandvars normpath : string → string.
Variable listdir : string → option (list string).
Variable re_compile : string → option (string → bool).
Variable isfile path_exists : string → bool.

Lemma expand_re_no_hook inps :
  Forall (fun inp => re_hook inp = false) inps →
  expand_re normpath listdir re_compile inps = Returns inps.
Proof.
  intros Hall. unfold expand_re.
  assert (mapM (expand_one normpath listdir re_compile) inps
          = Returns ((fun x => [x]) <$> inps)) as ->.
  { apply mapM_Returns. induction Hall as [|x l Hx _ IH]; simpl; constructor;
      [|done]. unfold expand_one. by rewrite Hx. }
  simpl. unfold mret, outcome_ret. f_equal.
  clear Hall. induction inps as [|x l IH]; simpl; [done | by f_equal].
Qed.

End FilesFacts.

(** X14. [expand_re] leaves alone the names that do not end like a pattern:
    a list of names without exclamation mark is returned as it is, in its
    order, and neither the directory nor any pattern is read. *)
Theorem expand_re_keeps_plain_names (normpath : string → string)
    (listdir : string → option (list string))
    (re_compile : string → option (string → bool)) (inps : list string) :
  Forall (no_chars (lit "!"%char)) inps →
  expand_re normpath listdir re_compile inps = Returns inps.
Proof.
  intros Hall. apply expand_re_no_hook.
  eapply Forall_impl; [exact Hall|]. intros inp Hno.
  destruct (re_hook inp) eqn:Hhook; [|done].
  by apply re_hook_bang in Hhook.
Qed.

Lemma expand_re_keeps_plain_names_witness :
  expand_re (fun s => s) (fun _ => None) (fun _ => None)
    ["/d/b.xlsx"; "/d/a.xlsx"]
  = Returns ["/d/b.xlsx"; "/d/a.xlsx"].
Proof.
  apply expand_re_keeps_plain_names. by repeat constructor.
Defined.

(** *** The tidy list *)

Lemma list_remove_first_None x l : list_remove_first x l = None ↔ x ∉ l.
Proof.
  induction l as [|y l IH]; simpl.
  - split; [intros _; apply not_elem_of_nil | done].
  - rewrite not_elem_of_cons. case_bool_decide as Hy.
    + split; [done | by intros [? _]].
    + rewrite fmap_None, IH. split; [by intros ? | by intros [_ ?]].
Qed.

Lemma list_remove_first_Some x l l' :
  list_remove_first x l = Some l' →
  ∃ l1 l2, l = l1 ++ x :: l2 ∧ l' = l1 ++ l2 ∧ x ∉ l1.
Proof.
  revert l'. induction l as [|y l IH]; intros l'; simpl; [done|].
  case_bool_decide as Hy.
  - intros [= <-]. subst y. exists [], l. split_and!; [done..|].
    apply not_elem_of_nil.
  - intros (l0 & Hl0 & ->)%fmap_Some.
    destruct (IH _ Hl0) as (l1 & l2 & -> & -> & Hx).
    exists (y :: l1), l2. split_and!; [done..|].
    apply not_elem_of_cons. split; [congruence | done].
Qed.

Lemma list_remove_first_length x l l' :
  list_remove_first x l = Some l' → List.length l = S (List.length l').
Proof.
  intros (l1 & l2 & -> & -> & _)%list_remove_first_Some.
  rewrite !length_app. simpl. lia.
Qed.

Lemma list_remove_first_sublist x l l' :
  list_remove_first x l = Some l' → l' `sublist_of` l.
Proof.
  intros (l1 & l2 & -> & -> & _)%list_remove_first_Some.
  apply sublist_app; [done|]. by apply sublist_cons.
Qed.

Lemma sublist_elem_of_l {A} (l1 l2 : list A) x :
  l1 `sublist_of` l2 → x ∈ l1 → x ∈ l2.
Proof.
  induction 1 as [|y l1 l2 _ IH|y l1 l2 _ IH]; [done| |].
  - intros [->|?]%elem_of_cons; [apply list_elem_of_here|].
    by apply list_elem_of_further, IH.
  - intros ?. by apply list_elem_of_further, IH.
Qed.

Lemma sublist_StronglySorted {A} (R : relation A) (l1 l2 : list A) :
  l1 `sublist_of` l2 → StronglySorted R l2 → StronglySorted R l1.
Proof.
  induction 1 as [|y l1 l2 Hsub IH|y l1 l2 Hsub IH]; [done| |].
  - intros [Hs Hall]%StronglySorted_inv. constructor; [by apply IH|].
    apply Forall_forall. intros x Hx.
    eapply Forall_forall in Hall; [done|]. by eapply sublist_elem_of_l.
  - intros [Hs _]%StronglySorted_inv. by apply IH.
Qed.

Lemma filter_sublist_of {A} (f : A → bool) (l : list A) :
  List.filter f l `sublist_of` l.
Proof.
  induction l as [|x l IH]; simpl; [done|].
  destruct (f x); [by apply sublist_skip | by apply sublist_cons].
Qed.

Lemma sorted_set_elem_of inps x : x ∈ sorted_set inps ↔ x ∈ inps.
Proof.
  unfold sorted_set. by rewrite merge_sort_Permutation, elem_of_remove_dups.
Qed.

Lemma sorted_set_NoDup inps : NoDup (sorted_set inps).
Proof.
  unfold sorted_set. rewrite merge_sort_Permutation. apply NoDup_remove_dups.
Qed.

Lemma sorted_set_sorted inps : StronglySorted String.le (sorted_set inps).
Proof. unfold sorted_set. apply StronglySorted_merge_sort; apply _. Qed.

Section TidyFacts.

Variable os : os_name.
Variable isfile : string → bool.

Lemma tidy_loop_fuel fuel inps i :
  (List.length inps - i < fuel)%nat → tidy_loop isfile fuel inps i ≠ OutOfFuel.
Proof.
  revert inps i. induction fuel as [|fuel IH]; intros inps i Hlt; [lia|].
  simpl. destruct (inps !! i) as [elem|] eqn:Hi; [|done].
  apply lookup_lt_Some in Hi.
  destruct (isfile (file_name_of elem)).
  - apply IH. lia.
  - destruct (list_remove_first _ inps) as [inps'|] eqn:Hrm; [|done].
    apply list_remove_first_length in Hrm. apply IH. lia.
Qed.

Lemma tidy_loop_sublist fuel inps i r :
  tidy_loop isfile fuel inps i = Returns r → r `sublist_of` inps.
Proof.
  revert inps i. induction fuel as [|fuel IH]; intros inps i; [done|].
  simpl. destruct (inps !! i) as [elem|]; [|by intros [= <-]].
  destruct (isfile (file_name_of elem)); [apply IH|].
  destruct (list_remove_first _ inps) as [inps'|] eqn:Hrm; [|done].
  intros Hr. etrans; [by eapply IH | by eapply list_remove_first_sublist].
Qed.

Lemma tidy_loop_Raises fuel inps i e :
  tidy_loop isfile fuel inps i = Raises e → e = ValueError_not_in_list.
Proof.
  revert inps i. induction fuel as [|fuel IH]; intros inps i; [done|].
  simpl. destruct (inps !! i) as [elem|]; [|done].
  destruct (isfile (file_name_of elem)); [apply IH|].
  destruct (list_remove_first _ inps) as [inps'|]; [apply IH | by intros [= <-]].
Qed.

End TidyFacts.

(** X15. [get_tidy_list] always ends, with a list or with the ValueError of
    [list.remove]. A list it returns is in increasing order, holds no name
    twice, and holds only names of its argument, with their separators
    replaced. *)
Theorem tidy_list_is_sorted (os : os_name) (isfile : string → bool)
    (inps : list string) :
  get_tidy_list os isfile inps ≠ OutOfFuel
  ∧ (∀ e, get_tidy_list os isfile inps = Raises e →
       e = ValueError_not_in_list)
  ∧ ∀ l, get_tidy_list os isfile inps = Returns l →
      StronglySorted String.le l ∧ NoDup l
      ∧ ∀ x, x ∈ l → ∃ inp, inp ∈ inps ∧ x = consistent_sep os inp.
Proof.
  unfold get_tidy_list. split_and!.
  - apply tidy_loop_fuel. lia.
  - intros e. apply tidy_loop_Raises.
  - intros l Hl. apply tidy_loop_sublist in Hl. split_and!.
    + eapply sublist_StronglySorted; [exact Hl | apply sorted_set_sorted].
    + eapply sublist_NoDup; [apply sorted_set_NoDup | exact Hl].
    + intros x Hx. eapply sublist_elem_of_l in Hx; [|done].
      apply sorted_set_elem_of, list_elem_of_fmap in Hx as (inp & -> & Hin).
      by exists inp.
Qed.

Lemma tidy_list_is_sorted_witness :
  StronglySorted String.le ["/d/a.xlsx"; "/d/c.xlsx"]
  ∧ NoDup ["/d/a.xlsx"; "/d/c.xlsx"].
Proof.
  destruct (proj2 (proj2 (tidy_list_is_sorted posix
              (fun s => bool_decide (s ∈ ["/d/a.xlsx"; "/d/c.xlsx"]))
              ["/d/c.xlsx"; "\d\a.xlsx"; "/d/b.xlsx"; "/d/a.xlsx"]))
            ["/d/a.xlsx"; "/d/c.xlsx"]) as (H1 & H2 & _).
  - reflexivity.
  - split; [exact H1 | exact H2].
Defined.

(** *** Names without semicolon *)

Lemma matches_regex_semicolon m :
  Re.matches regex_semicolon m → ";"%char ∈ m.
Proof.
  unfold regex_semicolon. intros H.
  inversion H as [|? ? a m1 _ H1]; subst.
  inversion H1 as [|? ? b m2 [Hb Hlb] H2]; subst. simpl in *.
  destruct b as [|x [|??]]; simplify_eq/=.
  apply Forall_cons in Hb as [Hx _]. apply bool_decide_eq_true in Hx. subst x.
  apply elem_of_app. right. apply list_elem_of_here.
Qed.

Lemma before_match_None re s :
  (∀ pre rest, s = pre ++ rest → Re.match_here re rest = None) →
  before_match re s = None.
Proof.
  induction s as [|c s IH]; intros H; simpl.
  - by rewrite (H [] []).
  - rewrite (H [] (c :: s)) by done. rewrite IH; [done|].
    intros pre rest ->. by apply (H (c :: pre)).
Qed.

Lemma file_name_of_plain inp :
  no_chars (lit ";"%char) inp → file_name_of inp = inp.
Proof.
  intros Hno. unfold file_name_of. rewrite before_match_None; [done|].
  intros pre rest Hs.
  destruct (Re.match_here regex_semicolon rest) as [m|] eqn:Hm; [|done].
  exfalso. apply ReFacts.match_here_sound in Hm as [Hm [rest' ->]].
  apply matches_regex_semicolon in Hm.
  unfold no_chars in Hno. rewrite Hs in Hno.
  assert (Hin : ";"%char ∈ pre ++ m ++ rest').
  { apply elem_of_app. right. apply elem_of_app. by left. }
  pose proof (proj1 (Forall_forall _ _) Hno _ Hin) as Hf.
  by vm_compute in Hf.
Qed.

Lemma re_sub_class_keeps (q p : ascii → bool) repl s :
  no_chars q repl → no_chars q s → no_chars q (re_sub_class p repl s).
Proof.
  intros Hrepl. induction s as [|c s IH]; simpl; [done|].
  intros [Hc Hs]%Forall_cons. destruct (p c).
  - apply no_chars_app. split; [done | by apply IH].
  - constructor; [done | by apply IH].
Qed.

Lemma consistent_sep_plain os inp :
  no_chars (lit ";"%char) inp → no_chars (lit ";"%char) (consistent_sep os inp).
Proof.
  intros H. apply re_sub_class_keeps; [|done].
  destruct os; by repeat constructor.
Qed.

Section KeptNames.

Variable isfile : string → bool.

Lemma kept_names_cases (P : list string → Prop) :
  P [] →
  (∀ x rest, isfile x = true → P rest → P (x :: rest)) →
  (∀ x, isfile x = false → P [x]) →
  (∀ x y rest, isfile x = false → P rest → P (x :: y :: rest)) →
  ∀ l, P l.
Proof.
  intros Hnil Hfile Hlast Hskip l.
  induction l as [l IH] using (induction_ltof1 _ (@List.length string)).
  unfold ltof in IH.
  destruct l as [|x rest]; [done|].
  destruct (isfile x) eqn:Hx.
  - apply Hfile; [done|]. apply IH. simpl. lia.
  - destruct rest as [|y rest]; [by apply Hlast|].
    apply Hskip; [done|]. apply IH. simpl. lia.
Qed.

Lemma kept_names_sublist l : kept_names isfile l `sublist_of` l.
Proof.
  induction l as [|x rest Hx IH|x Hx|x y rest Hx IH] using kept_names_cases;
    simpl; rewrite ?Hx.
  - done.
  - by apply sublist_skip.
  - by apply sublist_cons.
  - by apply sublist_cons, sublist_skip.
Qed.

Lemma kept_names_files l x :
  x ∈ l → isfile x = true → x ∈ kept_names isfile l.
Proof.
  intros Hin Hfx. revert Hin.
  induction l as [|z rest Hz IH|z Hz|z y rest Hz IH] using kept_names_cases;
    simpl; rewrite ?Hz.
  - done.
  - intros [->|?]%elem_of_cons; [apply list_elem_of_here|].
    by apply list_elem_of_further, IH.
  - intros ->%list_elem_of_singleton. congruence.
  - intros [->|[->|?]%elem_of_cons]%elem_of_cons; [congruence| |].
    + apply list_elem_of_here.
    + by apply list_elem_of_further, IH.
Qed.

Lemma kept_names_filter l :
  (∀ i x y, l !! i = Some x → l !! S i = Some y →
            isfile x = false → isfile y = true) →
  kept_names isfile l = List.filter isfile l.
Proof.
  induction l as [|z rest Hz IH|z Hz|z y rest Hz IH] using kept_names_cases;
    intros Hadj; simpl; rewrite ?Hz.
  - done.
  - f_equal. apply IH. intros i x y Hx Hy. by apply (Hadj (S i)).
  - done.
  - rewrite (Hadj 0%nat z y) by done. f_equal. apply IH.
    intros i x y' Hx Hy. by apply (Hadj (S (S i))).
Qed.

Lemma tidy_loop_kept fuel visited rest :
  NoDup (visited ++ rest) →
  Forall (fun x => file_name_of x = x) rest →
  (List.length rest < fuel)%nat →
  tidy_loop isfile fuel (visited ++ rest) (List.length visited)
  = Returns (visited ++ kept_names isfile rest).
Proof.
  revert visited rest. induction fuel as [|fuel IH]; intros visited rest Hnd Hplain Hlt;
    [lia|].
  cbn [tidy_loop]. rewrite lookup_app_r, Nat.sub_diag by done.
  destruct rest as [|x rest]; [done|]. cbn [lookup list_lookup].
  apply Forall_cons in Hplain as [Hx Hplain]. rewrite Hx. simpl in Hlt.
  destruct (isfile x) eqn:Hfx.
  - replace (visited ++ x :: rest) with ((visited ++ [x]) ++ rest)
      by (by rewrite <-(assoc_L (++))).
    replace (S (List.length visited)) with (List.length (visited ++ [x]))
      by (rewrite length_app; simpl; lia).
    rewrite IH; [|by rewrite <-(assoc_L (++)) | done | lia].
    cbn [kept_names]. rewrite Hfx. by rewrite <-(assoc_L (++)).
  - assert (list_remove_first x (visited ++ x :: rest) = Some (visited ++ rest))
      as ->.
    { apply NoDup_app in Hnd as (_ & Hdisj & _). clear -Hdisj.
      induction visited as [|v visited IHv]; simpl.
      - by rewrite bool_decide_eq_true_2.
      - rewrite bool_decide_eq_false_2.
        + rewrite IHv; [done|]. intros y Hy. apply Hdisj. by right.
        + intros ->. eapply Hdisj; [apply list_elem_of_here|].
          apply list_elem_of_here. }
    cbn [kept_names]. rewrite Hfx.
    destruct rest as [|y rest].
    + destruct fuel; [lia|]. cbn [tidy_loop].
      rewrite lookup_ge_None_2; [done|]. rewrite length_app. simpl. lia.
    + apply Forall_cons in Hplain as [_ Hplain].
      replace (visited ++ y :: rest) with ((visited ++ [y]) ++ rest)
        by (by rewrite <-(assoc_L (++))).
      replace (S (List.length visited)) with (List.length (visited ++ [y]))
        by (rewrite length_app; simpl; lia).
      rewrite IH; [by rewrite <-(assoc_L (++)) | | done | simpl in Hlt; lia].
      rewrite <-(assoc_L (++)). simpl.
      apply NoDup_app in Hnd as (Hv & Hdisj & Hr).
      apply NoDup_cons in Hr as [_ Hr].
      apply NoDup_app. split_and!; [done| |done].
      intros z Hz Hin. eapply Hdisj; [done|]. by right.
Qed.

End KeptNames.

(** X16. On names without semicolon, the loop of [get_tidy_list] goes through
    the sorted names and, each time it drops a name that is not a file, it
    passes over the next name without testing it. Every name that is a file
    is in the list that is returned. *)
Theorem tidy_list_without_semicolon (os : os_name) (isfile : string → bool)
    (inps : list string) :
  Forall (no_chars (lit ";"%char)) inps →
  get_tidy_list os isfile inps
  = Returns (kept_names isfile (sorted_set (consistent_sep os <$> inps)))
  ∧ ∀ inp, inp ∈ inps → isfile (consistent_sep os inp) = true →
      ∃ l, get_tidy_list os isfile inps = Returns l ∧ consistent_sep os inp ∈ l.
Proof.
  intros Hplain.
  assert (Heq : get_tidy_list os isfile inps
    = Returns (kept_names isfile (sorted_set (consistent_sep os <$> inps)))).
  { unfold get_tidy_list.
    apply (tidy_loop_kept isfile _ [] (sorted_set (consistent_sep os <$> inps))).
    - apply sorted_set_NoDup.
    - apply Forall_forall. intros x Hx. apply file_name_of_plain.
      apply sorted_set_elem_of, list_elem_of_fmap in Hx as (inp & -> & Hin).
      apply consistent_sep_plain. by eapply Forall_forall in Hplain.
    - lia. }
  split; [done|]. intros inp Hin Hfile. eexists. split; [exact Heq|].
  apply kept_names_files; [|done].
  apply sorted_set_elem_of, list_elem_of_fmap. by exists inp.
Qed.

Lemma tidy_list_without_semicolon_witness :
  get_tidy_list posix (fun s => bool_decide (s ∈ ["/d/a.xlsx"; "/d/c.xlsx"]))
    ["/d/c.xlsx"; "/d/b.xlsx"; "/d/bb.xlsx"; "/d/a.xlsx"]
  = Returns ["/d/a.xlsx"; "/d/bb.xlsx"; "/d/c.xlsx"].
Proof.
  destruct (tidy_list_without_semicolon posix
              (fun s => bool_decide (s ∈ ["/d/a.xlsx"; "/d/c.xlsx"]))
              ["/d/c.xlsx"; "/d/b.xlsx"; "/d/bb.xlsx"; "/d/a.xlsx"])
    as [Heq _].
  - by repeat constructor.
  - exact Heq.
Defined.

(** X17. On names without semicolon, the list that [get_tidy_list] returns
    is the list of the files when, in the sorted names, every name that is
    not a file is the last one or stands before a file. After a name
    that is not a file at the head of the sorted names, the second name is
    returned whether it is a file or not. *)
Theorem tidy_list_is_the_files (os : os_name) (isfile : string → bool)
    (inps : list string) :
  Forall (no_chars (lit ";"%char)) inps →
  ((∀ i x y, sorted_set (consistent_sep os <$> inps) !! i = Some x →
             sorted_set (consistent_sep os <$> inps) !! S i = Some y →
             isfile x = false → isfile y = true) →
   get_tidy_list os isfile inps
   = Returns (List.filter isfile (sorted_set (consistent_sep os <$> inps))))
  ∧ (∀ x y rest,
       sorted_set (consistent_sep os <$> inps) = x :: y :: rest →
       isfile x = false →
       ∃ l, get_tidy_list os isfile inps = Returns (y :: l)).
Proof.
  intros Hplain.
  assert (Heq : get_tidy_list os isfile inps
    = Returns (kept_names isfile (sorted_set (consistent_sep os <$> inps)))).
  { unfold get_tidy_list.
    apply (tidy_loop_kept isfile _ [] (sorted_set (consistent_sep os <$> inps))).
    - apply sorted_set_NoDup.
    - apply Forall_forall. intros x Hx. apply file_name_of_plain.
      apply sorted_set_elem_of, list_elem_of_fmap in Hx as (inp & -> & Hin).
      apply consistent_sep_plain. by eapply Forall_forall in Hplain.
    - lia. }
  split.
  - intros Hadj. rewrite Heq. f_equal. by apply kept_names_filter.
  - intros x y rest Hs Hx. rewrite Heq, Hs. simpl. rewrite Hx. by eexists.
Qed.

Lemma tidy_list_is_the_files_witness :
  get_tidy_list posix (fun s => bool_decide (s ∈ ["/d/a.xlsx"; "/d/c.xlsx"]))
    ["/d/c.xlsx"; "/d/b.xlsx"; "/d/a.xlsx"]
  = Returns ["/d/a.xlsx"; "/d/c.xlsx"].
Proof.
  apply (proj1 (tidy_list_is_the_files posix
                  (fun s => bool_decide (s ∈ ["/d/a.xlsx"; "/d/c.xlsx"]))
                  ["/d/c.xlsx"; "/d/b.xlsx"; "/d/a.xlsx"]
                  ltac:(by repeat constructor))).
  intros i x y Hx Hy.
  destruct i as [|[|[|i]]]; vm_compute in Hx, Hy; try done;
    injection Hx as <-; injection Hy as <-; by vm_compute.
Defined.

(** *** Names with a semicolon *)

Section TidyFiles.

Variable isfile : string → bool.

Lemma tidy_loop_files fuel visited pre rest :
  Forall (fun p => isfile (file_name_of p) = true) pre →
  tidy_loop isfile (List.length pre + fuel) (visited ++ pre ++ rest)
    (List.length visited)
  = tidy_loop isfile fuel (visited ++ pre ++ rest)
      (List.length visited + List.length pre).
Proof.
  intros Hpre. revert visited.
  induction Hpre as [|p pre Hp _ IH]; intros visited.
  - simpl. by rewrite Nat.add_0_r.
  - cbn [List.length Nat.add tidy_loop].
    rewrite lookup_app_r, Nat.sub_diag by done. cbn [app lookup list_lookup].
    rewrite Hp.
    replace (visited ++ p :: pre ++ rest) with ((visited ++ [p]) ++ pre ++ rest)
      by (by rewrite <-(assoc_L (++))).
    replace (S (List.length visited)) with (List.length (visited ++ [p]))
      by (rewrite length_app; simpl; lia).
    rewrite IH. f_equal. rewrite length_app. simpl. lia.
Qed.

End TidyFiles.

(** X18. A name with a semicolon is tested by the part before the semicolon
    and the whitespace around it. When this part is a file for every name,
    the sorted names are returned whole, each with what follows its
    semicolon. At the first name whose part is not a file, when this part is
    not itself a name of the list, the removal raises ValueError. *)
Theorem tidy_list_with_semicolon (os : os_name) (isfile : string → bool)
    (inps : list string) :
  (Forall (fun p => isfile (file_name_of p) = true)
          (sorted_set (consistent_sep os <$> inps)) →
   get_tidy_list os isfile inps
   = Returns (sorted_set (consistent_sep os <$> inps)))
  ∧ (∀ pre x post,
       sorted_set (consistent_sep os <$> inps) = pre ++ x :: post →
       Forall (fun p => isfile (file_name_of p) = true) pre →
       isfile (file_name_of x) = false →
       file_name_of x ∉ sorted_set (consistent_sep os <$> inps) →
       get_tidy_list os isfile inps = Raises ValueError_not_in_list).
Proof.
  unfold get_tidy_list. split.
  - intros Hall.
    pose proof (tidy_loop_files isfile 1 [] _ [] Hall) as H.
    rewrite (right_id_L [] (++)) in H. cbn [app List.length Nat.add] in H.
    rewrite Nat.add_1_r in H. rewrite H. cbn [tidy_loop].
    by rewrite lookup_ge_None_2.
  - intros pre x post Hs Hpre Hx Hnotin. rewrite Hs in *.
    pose proof (tidy_loop_files isfile (S (S (List.length post))) []
                  pre (x :: post) Hpre) as H.
    cbn [app List.length Nat.add] in H.
    replace (S (List.length (pre ++ x :: post)))
      with (List.length pre + S (S (List.length post)))%nat
      by (rewrite length_app; simpl; lia).
    rewrite H. cbn [tidy_loop].
    rewrite lookup_app_r, Nat.sub_diag by done. cbn [lookup list_lookup].
    rewrite Hx. by rewrite (proj2 (list_remove_first_None _ _) Hnotin).
Qed.

Lemma tidy_list_with_semicolon_witness :
  get_tidy_list posix (fun s => bool_decide (s = "/d/a.xlsx"))
    ["/d/a.xlsx ; /d/a.png"]
  = Returns ["/d/a.xlsx ; /d/a.png"]
  ∧ get_tidy_list posix (fun s => bool_decide (s = "/d/a.xlsx"))
      ["/d/a.xlsx"; "/d/b.xlsx ; /d/b.png"]
    = Raises ValueError_not_in_list.
Proof.
  split.
  - apply (proj1 (tidy_list_with_semicolon posix
                    (fun s => bool_decide (s = "/d/a.xlsx"))
                    ["/d/a.xlsx ; /d/a.png"])).
    by repeat constructor.
  - apply (proj2 (tidy_list_with_semicolon posix
                    (fun s => bool_decide (s = "/d/a.xlsx"))
                    ["/d/a.xlsx"; "/d/b.xlsx ; /d/b.png"])
             ["/d/a.xlsx"] "/d/b.xlsx ; /d/b.png" []).
    + reflexivity.
    + by repeat constructor.
    + reflexivity.
    + apply (bool_decide_unpack _). by vm_compute.
Defined.

(** *** The tables to convert *)

Lemma Forall2_lit (pat m : list ascii) :
  Forall2 (fun c x => lit c x = true) pat m ↔ m = pat.
Proof.
  unfold lit. split.
  - induction 1 as [|c x pat m Hx _ IH]; [done|].
    apply bool_decide_eq_true in Hx. by f_equal.
  - intros ->. induction pat as [|c pat IH]; constructor;
      [by apply bool_decide_eq_true | done].
Qed.

Lemma re_search_literal_true pattern text :
  re_search_literal pattern text = true ↔
  ∃ pre post, text = pre +:+ pattern +:+ post.
Proof.
  unfold re_search_literal, str_contains, Re.literal.
  rewrite bool_decide_eq_true, ReFacts.search_is_Some. split.
  - intros (pre & m & post & Hc & Hm).
    apply ReFacts.matches_lits, Forall2_lit in Hm. subst m.
    exists (string_of_list_ascii pre), (string_of_list_ascii post).
    apply chars_inj.
    by rewrite !chars_app, !list_ascii_of_string_of_list_ascii.
  - intros (pre & post & ->).
    exists (chars pre), (chars pattern), (chars post).
    split; [by rewrite !chars_app|].
    by apply ReFacts.matches_lits, Forall2_lit.
Qed.

Lemma split_char_two c s :
  ¬ no_chars (lit c) s → ∃ a b rest, split_char c s = a :: b :: rest.
Proof.
  induction s as [|x s IH]; intros Hno.
  - exfalso. apply Hno. constructor.
  - simpl. case_bool_decide as Hx.
    + destruct s as [|y s]; simpl; [by eexists _, _, _|].
      case_bool_decide; [by eexists _, _, _|].
      destruct (split_char c s); by eexists _, _, _.
    + destruct IH as (a & b & rest & ->); [|by eexists _, _, _].
      intros Hs. apply Hno. constructor; [|done].
      unfold lit. by apply bool_decide_eq_false.
Qed.

Section IdentifyFacts.

Variable os : os_name.
Variable expandvars normpath : string → string.
Variable listdir : string → option (list string).
Variable re_compile : string → option (string → bool).
Variable isfile path_exists : string → bool.

Lemma expand_one_outcome inp :
  (∃ l, expand_one normpath listdir re_compile inp = Returns l)
  ∨ expand_one normpath listdir re_compile inp = Raises re_error
  ∨ expand_one normpath listdir re_compile inp = Raises OSError.
Proof.
  unfold expand_one. destruct (re_hook inp) eqn:Hhook; [|left; by eexists].
  apply re_hook_bang, split_char_two in Hhook as (a & b & rest & ->).
  destruct (re_compile b); [|by right; left].
  destruct (listdir (normpath a)); [left; by eexists | by right; right].
Qed.

Lemma expand_re_outcome inps :
  (∃ l, expand_re normpath listdir re_compile inps = Returns l)
  ∨ expand_re normpath listdir re_compile inps = Raises re_error
  ∨ expand_re normpath listdir re_compile inps = Raises OSError.
Proof.
  unfold expand_re. induction inps as [|inp inps IH]; simpl.
  - left. by eexists.
  - destruct (expand_one_outcome inp) as [[l ->]|[-> | ->]]; simpl;
      [|by right; left | by right; right].
    destruct (mapM _ inps) as [k|e|]; simpl in *.
    + left. by eexists.
    + destruct IH as [[? ?]|[?|?]]; [done|by right; left|by right; right].
    + destruct IH as [[? ?]|[?|?]]; done.
Qed.

End IdentifyFacts.

(** X19. [expand_re] either returns a list or raises the error of a pattern
    that does not compile or of a directory that cannot be listed: a name
    that ends like a pattern always has the two parts the code reads, so
    that no IndexError can occur. *)
Theorem expand_re_exceptions (normpath : string → string)
    (listdir : string → option (list string))
    (re_compile : string → option (string → bool)) (inps : list string) :
  (∃ l, expand_re normpath listdir re_compile inps = Returns l)
  ∨ expand_re normpath listdir re_compile inps = Raises re_error
  ∨ expand_re normpath listdir re_compile inps = Raises OSError.
Proof. apply expand_re_outcome. Qed.

(** X20. [identify_tbls] always ends, and the only exceptions it can raise
    are those of a pattern, of a directory and of [list.remove]. Every name
    it returns exists and does not hold the mark of a temporary file of
    Excel; the names are in increasing order and none is returned twice. *)
Theorem identify_tbls_returns_existing_tables (os : os_name)
    (expandvars normpath : string → string)
    (listdir : string → option (list string))
    (re_compile : string → option (string → bool))
    (isfile path_exists : string → bool)
    (inp_path : string) (inp_files : list string) :
  identify_tbls os expandvars normpath listdir re_compile isfile path_exists
    inp_path inp_files ≠ OutOfFuel
  ∧ (∀ e, identify_tbls os expandvars normpath listdir re_compile isfile
            path_exists inp_path inp_files = Raises e →
          e = re_error ∨ e = OSError ∨ e = ValueError_not_in_list)
  ∧ ∀ l, identify_tbls os expandvars normpath listdir re_compile isfile
           path_exists inp_path inp_files = Returns l →
      Forall (fun inp => path_exists inp = true
                         ∧ ¬ ∃ pre post, inp = pre +:+ "~$" +:+ post) l
      ∧ StronglySorted String.le l ∧ NoDup l.
Proof.
  unfold identify_tbls.
  destruct (expand_re_outcome normpath listdir re_compile
              (concat_path_and_files expandvars (expandvars inp_path) inp_files))
    as [[inps ->]|[-> | ->]]; simpl.
  2: { split_and!; [done | intros e [= <-]; by left | done]. }
  2: { split_and!; [done | intros e [= <-]; by right; left | done]. }
  assert (Hfuel : get_tidy_list os isfile inps ≠ OutOfFuel)
    by (apply tidy_loop_fuel; lia).
  assert (Hexn : ∀ e, get_tidy_list os isfile inps = Raises e →
                      e = ValueError_not_in_list)
    by (intros e; apply tidy_loop_Raises).
  assert (Hret : ∀ tidy, get_tidy_list os isfile inps = Returns tidy →
                         StronglySorted String.le tidy ∧ NoDup tidy).
  { intros tidy Ht. apply tidy_loop_sublist in Ht. split.
    - eapply sublist_StronglySorted; [exact Ht | apply sorted_set_sorted].
    - eapply sublist_NoDup; [apply sorted_set_NoDup | exact Ht]. }
  destruct (get_tidy_list os isfile inps) as [tidy|e|]; simpl; [| |done].
  - split_and!; [done..|].
    intros l [= <-]. destruct (Hret tidy eq_refl) as (Hs & Hnd).
    split_and!.
    + apply Forall_forall. intros inp Hin.
      apply list_elem_of_In, filter_In in Hin as [_ Hf].
      apply andb_true_iff in Hf as [Hmark Hex]. split; [done|].
      apply negb_true_iff in Hmark. rewrite <-re_search_literal_true.
      by rewrite Hmark.
    + eapply sublist_StronglySorted; [apply filter_sublist_of | done].
    + eapply sublist_NoDup; [done | apply filter_sublist_of].
  - split_and!; [done| |done].
    intros e' [= <-]. right; right. by apply Hexn.
Qed.

Lemma identify_tbls_returns_existing_tables_witness :
  Forall (fun inp => bool_decide (inp ≠ "/d/c.xlsx") = true
                     ∧ ¬ ∃ pre post, inp = pre +:+ "~$" +:+ post)
         ["/d/a.xlsx"].
Proof.
  destruct (proj2 (proj2 (identify_tbls_returns_existing_tables posix
              (fun s => s) (fun s => s) (fun _ => None) (fun _ => None)
              (fun s => bool_decide (s ≠ "/d/b.xlsx"))
              (fun s => bool_decide (s ≠ "/d/c.xlsx"))
              "/d" ["c.xlsx"; "~$a.xlsx"; "a.xlsx"; "b.xlsx"]))
            ["/d/a.xlsx"]) as (H & _).
  - reflexivity.
  - exact H.
Defined.

(** ** Instances of the equivalences *)

Lemma conversion_succeeds_iff_witness :
  ∃ g, convert_table_to_map
         [well_record "A01" "Unkn" "UT1"; well_record "x7" "Unkn" "UT2"]
       = Ok g.
Proof.
  apply (proj2 (conversion_succeeds_iff
                  [well_record "A01" "Unkn" "UT1";
                   well_record "x7" "Unkn" "UT2"] eq_refl)).
  split.
  - apply Forall_cons. split; [|apply Forall_cons; split; [|apply Forall_nil_2]].
    + split.
      * intros H. inversion H as [|?? _ H1]. inversion H1 as [|?? Hx _].
        by vm_compute in Hx.
      * intros ds Hds. vm_compute in Hds. injection Hds as <-. by vm_compute.
    + split.
      * intros H. inversion H as [|?? _ H1]. inversion H1 as [|?? Hx _].
        by vm_compute in Hx.
      * intros ds Hds. vm_compute in Hds. injection Hds as <-. by vm_compute.
  - apply (bool_decide_unpack _). by vm_compute.
Defined.

Lemma color_map_needs_two_semicolons_witness :
  build_color_map ["Ctrl;yellow;"; "Pos;red"] [] = Raise ValueError_unpack.
Proof.
  apply (proj2 (proj2 (color_map_needs_two_semicolons
                         ["Ctrl;yellow;"; "Pos;red"] []))).
  apply Exists_cons_tl, Exists_cons_hd. by vm_compute.
Defined.

Lemma style_is_missing_iff_witness :
  highlight_cells re_search_literal (Some "Neg Ctrl")
    ([rule "Pos" "" "red"] ++ rule "Neg" "" "" :: [rule "Ctrl" "yellow" ""])
  = None.
Proof.
  apply (proj2 (style_is_missing_iff re_search_literal (Some "Neg Ctrl") _)).
  right. exists [rule "Pos" "" "red"], "Neg",
    {| background_color := ""; text_color := "" |}, [rule "Ctrl" "yellow" ""].
  split_and!; [reflexivity | by repeat constructor | reflexivity..].
Defined.
